(** * Bounded lock-free event ring buffer (atomic_event_ring_buffer.c)

    A shallow embedding of [ring_buffer_init], [enqueue_event] and
    [dequeue_event], and the properties of the queue's specification that
    are settled on it.

    Conventions.
    - [uint64_t] values are integers of [Z]; the one place where the C code
      can wrap around ([current_tail + 1], [current_head + 1]) goes through
      [u64].  [x % RING_SIZE] on unsigned operands is [x mod RING_SIZE].
    - The array [Event buffer[RING_SIZE]] is a [list Event]; that it has
      exactly [RING_SIZE] cells is the predicate [wf].
    - [RING_SIZE] is a [#define] of the C file (1024).  The embedding takes
      it as a section variable so that the same text can be read at other
      capacities; [Src] instantiates the value of the source.
    - A pointer parameter is passed in and handed back: [dequeue_event]
      receives the previous content of [*event] and returns the new one.
    - The retry loops end when the weak compare-and-swap succeeds.  The
      number of compare-and-swap attempts that fail before it does is an
      argument ([cas_failures]); between two attempts of a call no other
      thread is assumed to touch the structure, which is the sequential
      reading of the functions.  The interleaving of two threads that the
      ordering question needs is written out in [Module Interleaved]. *)

From stdpp Require Import base list numbers.

Local Open Scope Z_scope.

(** ** Data *)

(** [typedef struct { uint32_t pid; uint32_t vpn; } Event;] *)
Record Event : Type := mkEvent { pid : Z; vpn : Z }.

(** [typedef struct { head; tail; buffer[RING_SIZE] } AtomicEventRingBuffer;]
    [head] is the next position to dequeue, [tail] the next to enqueue. *)
Record AtomicEventRingBuffer : Type := mkRing {
  head : Z;
  tail : Z;
  buffer : list Event
}.

(** Conversion to [uint64_t]. *)
Definition u64 (x : Z) : Z := x mod 2 ^ 64.

(** What a call hands back: the [int] it returns, the structure behind
    [rb], the object behind [event], and (for the proofs about the retry
    loop only) how many times the loop body ran. *)
Record Outcome : Type := mkOutcome {
  ret : Z;
  rb_out : AtomicEventRingBuffer;
  event_out : Event;
  iterations : nat
}.

(** How the [do ... while] of [enqueue_event] is left. *)
Inductive LoopExit : Type :=
  | ReturnFull                       (* [return -1] from inside the loop *)
  | Claimed (current_tail : Z).      (* the compare-and-swap succeeded *)

Section RingBuffer.

Variable RING_SIZE : Z.

(** The array of the structure has [RING_SIZE] cells. *)
Definition wf (rb : AtomicEventRingBuffer) : Prop :=
  length (buffer rb) = Z.to_nat RING_SIZE.

(** ** ring_buffer_init

    Stores 0 in [head], then in [tail]; the array is left as it is.  (The
    [printf] of the source is not part of the state.) *)
Definition ring_buffer_init (rb : AtomicEventRingBuffer) : AtomicEventRingBuffer :=
  {| head := 0; tail := 0; buffer := buffer rb |}.

(** ** enqueue_event

    The loop: load [tail] and [head], compute [next_tail], return -1 when it
    meets [head], otherwise try to move [tail] to [next_tail]. *)
Fixpoint enqueue_claim (cas_failures : nat) (rb : AtomicEventRingBuffer)
  : LoopExit * AtomicEventRingBuffer * nat :=
  let current_tail := tail rb in
  let current_head := head rb in
  let next_tail := u64 (current_tail + 1) mod RING_SIZE in
  if next_tail =? current_head then (ReturnFull, rb, 1%nat)
  else
    match cas_failures with
    | S k =>
        let '(exit, rb', n) := enqueue_claim k rb in (exit, rb', S n)
    | O =>
        (Claimed current_tail,
         {| head := head rb; tail := next_tail; buffer := buffer rb |},
         1%nat)
    end.

(** After the loop: [rb->buffer[current_tail % RING_SIZE] = *event;] *)
Definition enqueue_write (rb : AtomicEventRingBuffer) (current_tail : Z)
    (event : Event) : AtomicEventRingBuffer :=
  {| head := head rb;
     tail := tail rb;
     buffer := <[Z.to_nat (current_tail mod RING_SIZE) := event]> (buffer rb) |}.

Definition enqueue_event (cas_failures : nat) (rb : AtomicEventRingBuffer)
    (event : Event) : Outcome :=
  match enqueue_claim cas_failures rb with
  | (ReturnFull, rb', n) =>
      {| ret := -1; rb_out := rb'; event_out := event; iterations := n |}
  | (Claimed current_tail, rb', n) =>
      {| ret := 0;
         rb_out := enqueue_write rb' current_tail event;
         event_out := event;
         iterations := n |}
  end.

(** ** dequeue_event

    [event] is the content of [*event] on entry.  The slot is copied to
    [*event] in every iteration that finds the buffer non-empty, before the
    compare-and-swap on [head].  The index is below [RING_SIZE]; were the
    list shorter than that, the model leaves [*event] alone. *)
Fixpoint dequeue_event (cas_failures : nat) (rb : AtomicEventRingBuffer)
    (event : Event) : Outcome :=
  let current_head := head rb in
  let current_tail := tail rb in
  if current_head =? current_tail then
    {| ret := -1; rb_out := rb; event_out := event; iterations := 1 |}
  else
    let event1 :=
      default event (buffer rb !! Z.to_nat (current_head mod RING_SIZE)) in
    match cas_failures with
    | S k =>
        let r := dequeue_event k rb event1 in
        {| ret := ret r; rb_out := rb_out r; event_out := event_out r;
           iterations := S (iterations r) |}
    | O =>
        {| ret := 0;
           rb_out := {| head := u64 (current_head + 1) mod RING_SIZE;
                        tail := tail rb;
                        buffer := buffer rb |};
           event_out := event1;
           iterations := 1 |}
    end.

(** ** A client of the three functions

    The drivers of the repository call the functions in a loop and count the
    calls that returned 0.  [Session] is such a client: the ring, the object
    its dequeues write to, the number of enqueues and of dequeues that
    succeeded since the ring was last initialised, and the log of what every
    call returned. *)
Inductive Call : Type :=
  | CallInit
  | CallEnqueue (cas_failures : nat) (event : Event)
  | CallDequeue (cas_failures : nat).

Inductive Returned : Type :=
  | InitDone
  | EnqueueReturned (code : Z)
  | DequeueReturned (code : Z) (event : Event).

Record Session : Type := mkSession {
  ring : AtomicEventRingBuffer;
  received : Event;
  enqueued : Z;
  dequeued : Z;
  log : list Returned
}.

Definition call (s : Session) (c : Call) : Session :=
  match c with
  | CallInit =>
      {| ring := ring_buffer_init (ring s); received := received s;
         enqueued := 0; dequeued := 0; log := log s ++ [InitDone] |}
  | CallEnqueue n event =>
      let r := enqueue_event n (ring s) event in
      {| ring := rb_out r; received := received s;
         enqueued := if ret r =? 0 then enqueued s + 1 else enqueued s;
         dequeued := dequeued s;
         log := log s ++ [EnqueueReturned (ret r)] |}
  | CallDequeue n =>
      let r := dequeue_event n (ring s) (received s) in
      {| ring := rb_out r; received := event_out r;
         enqueued := enqueued s;
         dequeued := if ret r =? 0 then dequeued s + 1 else dequeued s;
         log := log s ++ [DequeueReturned (ret r) (event_out r)] |}
  end.

Definition run (calls : list Call) (s : Session) : Session :=
  fold_left call calls s.

(** The session that starts by initialising the structure found in memory. *)
Definition fresh (rb0 : AtomicEventRingBuffer) (ev0 : Event) : Session :=
  {| ring := ring_buffer_init rb0; received := ev0;
     enqueued := 0; dequeued := 0; log := [] |}.

(** Number of events enqueued and not yet dequeued. *)
Definition occupancy (s : Session) : Z := enqueued s - dequeued s.

(** What holds of every session started by [fresh]: the array keeps its
    size, the stored cursors are the two counts reduced modulo [RING_SIZE],
    and the counts are never further apart than [RING_SIZE - 1]. *)
Record invariant (s : Session) : Prop := mkInvariant {
  inv_wf : wf (ring s);
  inv_head : head (ring s) = dequeued s mod RING_SIZE;
  inv_tail : tail (ring s) = enqueued s mod RING_SIZE;
  inv_order : 0 <= dequeued s <= enqueued s;
  inv_bound : enqueued s - dequeued s <= RING_SIZE - 1
}.

End RingBuffer.

Arguments wf RING_SIZE rb : assert.

(** ** The configuration of the source: [#define RING_SIZE 1024] *)
Module Src.
Definition RING_SIZE : Z := 1024.

(** A structure as a zero-filled global has it before [ring_buffer_init]. *)
Definition zeroed : AtomicEventRingBuffer :=
  {| head := 0; tail := 0;
     buffer := replicate (Z.to_nat RING_SIZE) (mkEvent 0 0) |}.

(** An event as the first producer of [main.c] builds it. *)
Definition sample (i : Z) : Event := mkEvent (i mod 1000) i.

(** [count] enqueue calls in a row, none of them contended. *)
Definition enqueues (count : nat) : list Call :=
  map (fun i => CallEnqueue 0 (sample (Z.of_nat i))) (seq 0 count).
End Src.

(** ** The full test as the specification words it

    Step 2 of try_enqueue: compute nextWrite = writeCursor + 1; if
    nextWrite - readCursor > Capacity the buffer is full.  Read on unsigned
    64-bit cursors. *)
Definition spec_next_write (writeCursor : Z) : Z := u64 (writeCursor + 1).

Definition spec_full (Capacity writeCursor readCursor : Z) : bool :=
  Capacity <? u64 (spec_next_write writeCursor - readCursor).

(** ** The scenario with five events at capacity 4 *)
Module Scenario.
Definition Capacity : Z := 4.
Definition A : Event := mkEvent 1 10.
Definition B : Event := mkEvent 1 11.
Definition C : Event := mkEvent 1 12.
Definition D : Event := mkEvent 1 13.
Definition E : Event := mkEvent 1 14.

Definition producer : list Call :=
  [CallEnqueue 0 A; CallEnqueue 0 B; CallEnqueue 0 C; CallEnqueue 0 D;
   CallEnqueue 0 E].

(** The consumer's attempts, then the producer's retry of [E]. *)
Definition script (dequeues : nat) : list Call :=
  producer ++ repeat (CallDequeue 0) dequeues ++ [CallEnqueue 0 E].

(** A structure with [cells] slots that has not been initialised. *)
Definition memory (cells : nat) : AtomicEventRingBuffer :=
  {| head := 0; tail := 0; buffer := replicate cells (mkEvent 0 0) |}.
End Scenario.

(** ** Two threads on one ring

    A producer inside one call of [enqueue_event] and a consumer inside one
    call of [dequeue_event], scheduled step by step.  The producer's call
    has two shared-memory phases, in the order of the source: the loop that
    ends with the compare-and-swap on [tail] ([enqueue_claim]), then the
    store of the event in the slot ([enqueue_write]).  The consumer's call is
    taken as one step.  Memory is sequentially consistent here, which only
    removes behaviours. *)
Module Interleaved.

Inductive Producer : Type :=
  | PEnter (event : Event)
  | PHolds (current_tail : Z) (event : Event)
  | PReturned (code : Z).

Inductive Consumer : Type :=
  | CEnter (event : Event)
  | CReturned (code : Z) (event : Event).

Record World : Type := mkWorld {
  mem : AtomicEventRingBuffer;
  producer : Producer;
  consumer : Consumer
}.

Inductive Thread : Type := P | C.

Section Steps.
Variable RING_SIZE : Z.

Definition step (w : World) (t : Thread) : World :=
  match t with
  | P =>
      match producer w with
      | PEnter event =>
          match enqueue_claim RING_SIZE 0 (mem w) with
          | (ReturnFull, m, _) =>
              {| mem := m; producer := PReturned (-1); consumer := consumer w |}
          | (Claimed current_tail, m, _) =>
              {| mem := m; producer := PHolds current_tail event;
                 consumer := consumer w |}
          end
      | PHolds current_tail event =>
          {| mem := enqueue_write RING_SIZE (mem w) current_tail event;
             producer := PReturned 0; consumer := consumer w |}
      | PReturned _ => w
      end
  | C =>
      match consumer w with
      | CEnter event =>
          let r := dequeue_event RING_SIZE 0 (mem w) event in
          {| mem := rb_out r; producer := producer w;
             consumer := CReturned (ret r) (event_out r) |}
      | CReturned _ _ => w
      end
  end.

Definition schedule (ts : list Thread) (w : World) : World :=
  fold_left step ts w.

End Steps.

(** The slot the first enqueue will use holds an old event. *)
Definition stale : Event := mkEvent 7 7.
Definition fresh_event : Event := mkEvent 1000 0.

Definition memory0 : AtomicEventRingBuffer :=
  ring_buffer_init
    {| head := 0; tail := 0;
       buffer := replicate (Z.to_nat Src.RING_SIZE) stale |}.

Definition world0 : World :=
  {| mem := memory0; producer := PEnter fresh_event;
     consumer := CEnter (mkEvent 0 0) |}.

End Interleaved.

(** ** The queue the ring stands for

    A first-in first-out list that refuses an event once it holds [limit]
    of them.  [fifo_log] is what a client of such a queue would see returned
    by a list of calls; [kept] is the event object of the consumer. *)
Section Fifo.

Variable limit : Z.

Fixpoint fifo_log (calls : list Call) (q : list Event) (kept : Event)
  : list Returned :=
  match calls with
  | [] => []
  | CallInit :: rest => InitDone :: fifo_log rest [] kept
  | CallEnqueue _ event :: rest =>
      if Z.of_nat (length q) =? limit
      then EnqueueReturned (-1) :: fifo_log rest q kept
      else EnqueueReturned 0 :: fifo_log rest (q ++ [event]) kept
  | CallDequeue _ :: rest =>
      match q with
      | [] => DequeueReturned (-1) kept :: fifo_log rest q kept
      | oldest :: q' => DequeueReturned 0 oldest :: fifo_log rest q' oldest
      end
  end.

End Fifo.

(** The events of [q] sit in the slots from [dequeued] on, oldest first. *)
Definition stores (RING_SIZE : Z) (s : Session) (q : list Event) : Prop :=
  Z.of_nat (length q) = occupancy s
  /\ forall i : nat,
       (i < length q)%nat ->
       buffer (ring s) !! Z.to_nat ((dequeued s + Z.of_nat i) mod RING_SIZE)
         = q !! i.

(** ** dequeue_event among other threads

    The loop of [dequeue_event] once more, with what the other threads do
    to the structure between the copy of the slot and the compare-and-swap
    of each iteration: one function per iteration, the structure as the
    others leave it.  The compare-and-swap succeeds when [head] still has
    the value loaded at the top of the iteration; once the list is used up
    nobody interferes.  (Failures of the weak compare-and-swap with an
    unchanged [head] are the [cas_failures] of [dequeue_event].) *)
Fixpoint dequeue_event_among (RING_SIZE : Z)
    (others : list (AtomicEventRingBuffer -> AtomicEventRingBuffer))
    (rb : AtomicEventRingBuffer) (event : Event) : Outcome :=
  let current_head := head rb in
  let current_tail := tail rb in
  if current_head =? current_tail then
    {| ret := -1; rb_out := rb; event_out := event; iterations := 1 |}
  else
    let event1 :=
      default event (buffer rb !! Z.to_nat (current_head mod RING_SIZE)) in
    let swapped (m : AtomicEventRingBuffer) :=
      {| ret := 0;
         rb_out := {| head := u64 (current_head + 1) mod RING_SIZE;
                      tail := tail m;
                      buffer := buffer m |};
         event_out := event1;
         iterations := 1 |} in
    match others with
    | [] => swapped rb
    | other :: rest =>
        let rb' := other rb in
        if head rb' =? current_head then swapped rb'
        else
          let r := dequeue_event_among RING_SIZE rest rb' event1 in
          {| ret := ret r; rb_out := rb_out r; event_out := event_out r;
             iterations := S (iterations r) |}
    end.

(** ** enqueue_event among other threads

    The same for the loop of [enqueue_event]: what the others do between
    the loads of an iteration and its compare-and-swap on [tail], which
    succeeds when [tail] has the value loaded.  The store into the slot
    follows the loop directly. *)
Fixpoint enqueue_claim_among (RING_SIZE : Z)
    (others : list (AtomicEventRingBuffer -> AtomicEventRingBuffer))
    (rb : AtomicEventRingBuffer) : LoopExit * AtomicEventRingBuffer * nat :=
  let current_tail := tail rb in
  let current_head := head rb in
  let next_tail := u64 (current_tail + 1) mod RING_SIZE in
  if next_tail =? current_head then (ReturnFull, rb, 1%nat)
  else
    let swapped (m : AtomicEventRingBuffer) :=
      (Claimed current_tail,
       {| head := head m; tail := next_tail; buffer := buffer m |},
       1%nat) in
    match others with
    | [] => swapped rb
    | other :: rest =>
        let rb' := other rb in
        if tail rb' =? current_tail then swapped rb'
        else
          let '(exit, rb'', n) := enqueue_claim_among RING_SIZE rest rb' in
          (exit, rb'', S n)
    end.

Definition enqueue_event_among (RING_SIZE : Z)
    (others : list (AtomicEventRingBuffer -> AtomicEventRingBuffer))
    (rb : AtomicEventRingBuffer) (event : Event) : Outcome :=
  match enqueue_claim_among RING_SIZE others rb with
  | (ReturnFull, rb', n) =>
      {| ret := -1; rb_out := rb'; event_out := event; iterations := n |}
  | (Claimed current_tail, rb', n) =>
      {| ret := 0;
         rb_out := enqueue_write RING_SIZE rb' current_tail event;
         event_out := event;
         iterations := n |}
  end.

(** Other threads carrying out [calls] on the structure, one call after the
    other, as one interference for [dequeue_event_among]. *)
Definition others_complete (RING_SIZE : Z) (calls : list Call)
    (m : AtomicEventRingBuffer) : AtomicEventRingBuffer :=
  ring (run RING_SIZE calls
          {| ring := m; received := mkEvent 0 0;
             enqueued := 0; dequeued := 0; log := [] |}).

(** The calls that take the cursors once round the ring from a state with
    one event in the queue: a dequeue, [RING_SIZE - 1] enqueues, as many
    dequeues. *)
Definition lap (RING_SIZE : Z) (event : Event) : list Call :=
  CallDequeue 0
  :: repeat (CallEnqueue 0 event) (Z.to_nat (RING_SIZE - 1))
  ++ repeat (CallDequeue 0) (Z.to_nat (RING_SIZE - 1)).

(** The calls that take [tail] once round the ring from an empty queue and
    leave the queue full: [RING_SIZE - 1] enqueues, a dequeue, an enqueue. *)
Definition refill (RING_SIZE : Z) (event : Event) : list Call :=
  repeat (CallEnqueue 0 event) (Z.to_nat (RING_SIZE - 1))
  ++ [CallDequeue 0; CallEnqueue 0 event].

(** ** The threads of the demonstration driver

    [producer_thread] and [consumer_thread] run alone on the ring, with no
    compare-and-swap attempt failing.  The [#define]s [EVENTS_PER_THREAD],
    [NUM_PRODUCERS] and [NUM_CONSUMERS] (1000000, 2, 2 in the source) are
    section variables like [RING_SIZE].  The [int] and [long] counters are
    integers of [Z]; they stay far from their bounds except where a theorem
    says otherwise. *)
Definition u32 (x : Z) : Z := x mod 2 ^ 32.

Record Counts : Type := mkCounts {
  success_count : Z;
  fail_count : Z
}.

Module Demo.

(** [Event event_to_enqueue = { .pid = (uint32_t)(thread_id * 1000 + (i % 1000)),
                                .vpn = (uint32_t)i };] *)
Definition event_to_enqueue (thread_id i : Z) : Event :=
  {| pid := u32 (thread_id * 1000 + Z.rem i 1000); vpn := u32 i |}.

Section Threads.

Variable RING_SIZE : Z.
Variable EVENTS_PER_THREAD : Z.
Variable NUM_PRODUCERS : Z.
Variable NUM_CONSUMERS : Z.

(** [for (long i = 0; i < EVENTS_PER_THREAD; ++i)]: [todo] iterations are
    left, the next one has index [i]. *)
Fixpoint producer_loop (thread_id : Z) (todo : nat) (i : Z)
    (rb : AtomicEventRingBuffer) (c : Counts) : AtomicEventRingBuffer * Counts :=
  match todo with
  | O => (rb, c)
  | S todo' =>
      let r := enqueue_event RING_SIZE 0 rb (event_to_enqueue thread_id i) in
      if ret r =? 0 then
        producer_loop thread_id todo' (i + 1) (rb_out r)
          {| success_count := success_count c + 1; fail_count := fail_count c |}
      else
        producer_loop thread_id todo' (i + 1) (rb_out r)
          {| success_count := success_count c; fail_count := fail_count c + 1 |}
  end.

(** The structure after the thread and its two counters ([success_count]
    is what the thread returns). *)
Definition producer_thread (thread_id : Z) (rb : AtomicEventRingBuffer)
  : AtomicEventRingBuffer * Counts :=
  producer_loop thread_id (Z.to_nat EVENTS_PER_THREAD) 0 rb
    {| success_count := 0; fail_count := 0 |}.

(** [(EVENTS_PER_THREAD * NUM_PRODUCERS) / NUM_CONSUMERS], the share a
    consumer wants to reach. *)
Definition quota : Z := Z.quot (EVENTS_PER_THREAD * NUM_PRODUCERS) NUM_CONSUMERS.

(** The [while] of [consumer_thread]; [None] when the loop is still running
    after [fuel] iterations. *)
Fixpoint consumer_loop (fuel : nat) (rb : AtomicEventRingBuffer)
    (received_event : Event) (c : Counts) (attempts_remaining : Z)
  : option (AtomicEventRingBuffer * Event * Counts) :=
  match fuel with
  | O => None
  | S fuel' =>
      if (attempts_remaining >? 0) || (success_count c <? quota) then
        let r := dequeue_event RING_SIZE 0 rb received_event in
        let c' :=
          if ret r =? 0
          then {| success_count := success_count c + 1;
                  fail_count := fail_count c |}
          else {| success_count := success_count c;
                  fail_count := fail_count c + 1 |} in
        let attempts_remaining' := attempts_remaining - 1 in
        if success_count c' >=? quota then Some (rb_out r, event_out r, c')
        else consumer_loop fuel' (rb_out r) (event_out r) c' attempts_remaining'
      else Some (rb, received_event, c)
  end.

(** [received_event] is what the thread's local variable holds at first. *)
Definition consumer_thread (fuel : nat) (rb : AtomicEventRingBuffer)
    (received_event : Event)
  : option (AtomicEventRingBuffer * Event * Counts) :=
  consumer_loop fuel rb received_event
    {| success_count := 0; fail_count := 0 |}
    (EVENTS_PER_THREAD * NUM_PRODUCERS * 2).

End Threads.

(** The end of [main]:
    [total_produced == total_consumed && final_head == final_tail]. *)
Definition final_check (total_produced total_consumed final_head final_tail : Z)
  : bool :=
  (total_produced =? total_consumed) && (final_head =? final_tail).

(** The enqueue calls of the events with indices [i], ..., [i + count - 1]. *)
Definition attempts (thread_id i : Z) (count : nat) : list Call :=
  map (fun k => CallEnqueue 0 (event_to_enqueue thread_id (i + Z.of_nat k)))
      (seq 0 count).

End Demo.

(** The [#define]s of the demonstration driver. *)
Module DemoSrc.
Definition EVENTS_PER_THREAD : Z := 1000000.
Definition NUM_PRODUCERS : Z := 2.
Definition NUM_CONSUMERS : Z := 2.
End DemoSrc.

(** ** The events of the stress test (main.c)

    The stress test builds events with a third field and checks them when
    they come out of the queue. *)
Module Stress.

(** Modelled from the spec: the declaration of the [Event] that the stress
    test uses is missing; it is the record of the data model with its
    optional identifier, an unsigned 64-bit [event_id] beside the unsigned
    32-bit [pid] and [vpn]. *)
Record Event : Type := mkEvent { event_id : Z; pid : Z; vpn : Z }.

(** [Event event = { .event_id = ((uint64_t)thread_id << 32) | i,
                     .pid = (uint32_t)(thread_id + 1000),
                     .vpn = (uint32_t)(i % 1024) };] *)
Definition event (thread_id i : Z) : Event :=
  {| event_id := Z.lor (u64 (Z.shiftl (u64 thread_id) 32)) (u64 i);
     pid := u32 (thread_id + 1000);
     vpn := u32 (Z.rem i 1024) |}.

(** [uint32_t expected_pid = (event.event_id >> 32) + 1000;] *)
Definition expected_pid (e : Event) : Z :=
  u32 (u64 (Z.shiftr (event_id e) 32 + 1000)).

(** The test before the [syslog] of a corrupted event:
    [event.pid != expected_pid]. *)
Definition corrupted (e : Event) : bool := negb (pid e =? expected_pid e).

End Stress.

(** * Properties *)

Section RingBufferFacts.

Variable RING_SIZE : Z.

Local Abbreviation next_of x := (u64 (x + 1) mod RING_SIZE).

(** ** What one call computes *)

Lemma enqueue_claim_full n rb :
  next_of (tail rb) = head rb ->
  enqueue_claim RING_SIZE n rb = (ReturnFull, rb, 1%nat).
Proof.
  intros Hfull. destruct n; simpl; rewrite Hfull, Z.eqb_refl; reflexivity.
Qed.

Lemma enqueue_claim_ok n rb :
  next_of (tail rb) <> head rb ->
  enqueue_claim RING_SIZE n rb =
    (Claimed (tail rb),
     {| head := head rb; tail := next_of (tail rb); buffer := buffer rb |},
     S n).
Proof.
  intros Hroom. apply Z.eqb_neq in Hroom.
  induction n as [|n IH]; simpl; rewrite Hroom.
  - reflexivity.
  - rewrite IH. reflexivity.
Qed.

Lemma enqueue_event_full n rb event :
  next_of (tail rb) = head rb ->
  enqueue_event RING_SIZE n rb event =
    {| ret := -1; rb_out := rb; event_out := event; iterations := 1 |}.
Proof.
  intros Hfull. unfold enqueue_event.
  rewrite enqueue_claim_full by assumption. reflexivity.
Qed.

Lemma enqueue_event_ok n rb event :
  next_of (tail rb) <> head rb ->
  enqueue_event RING_SIZE n rb event =
    {| ret := 0;
       rb_out :=
         {| head := head rb;
            tail := next_of (tail rb);
            buffer := <[Z.to_nat (tail rb mod RING_SIZE) := event]> (buffer rb) |};
       event_out := event;
       iterations := S n |}.
Proof.
  intros Hroom. unfold enqueue_event.
  rewrite enqueue_claim_ok by assumption. reflexivity.
Qed.

Lemma dequeue_event_empty n rb event :
  head rb = tail rb ->
  dequeue_event RING_SIZE n rb event =
    {| ret := -1; rb_out := rb; event_out := event; iterations := 1 |}.
Proof.
  intros Hempty. destruct n; simpl; rewrite Hempty, Z.eqb_refl; reflexivity.
Qed.

Lemma dequeue_event_ok n rb event :
  head rb <> tail rb ->
  dequeue_event RING_SIZE n rb event =
    {| ret := 0;
       rb_out :=
         {| head := next_of (head rb); tail := tail rb; buffer := buffer rb |};
       event_out :=
         default event (buffer rb !! Z.to_nat (head rb mod RING_SIZE));
       iterations := S n |}.
Proof.
  intros Hsome. apply Z.eqb_neq in Hsome.
  revert event. induction n as [|n IH]; intros event; simpl; rewrite Hsome.
  - reflexivity.
  - rewrite IH. simpl.
    destruct (buffer rb !! Z.to_nat (head rb mod RING_SIZE)); reflexivity.
Qed.

(** The return code says which of the two cases a call was in. *)
Lemma enqueue_event_code n rb event :
  ret (enqueue_event RING_SIZE n rb event) =
    if next_of (tail rb) =? head rb then -1 else 0.
Proof.
  destruct (Z.eqb_spec (next_of (tail rb)) (head rb)) as [Hfull|Hroom].
  - rewrite enqueue_event_full by assumption. reflexivity.
  - rewrite enqueue_event_ok by assumption. reflexivity.
Qed.

Lemma dequeue_event_code n rb event :
  ret (dequeue_event RING_SIZE n rb event) =
    if head rb =? tail rb then -1 else 0.
Proof.
  destruct (Z.eqb_spec (head rb) (tail rb)) as [Hempty|Hsome].
  - rewrite dequeue_event_empty by assumption. reflexivity.
  - rewrite dequeue_event_ok by assumption. reflexivity.
Qed.

(** ** Initialisation *)

(** C7: after [ring_buffer_init] both cursors are 0, whatever the structure
    held before; the function has no failure path (it returns the
    structure, with the array untouched). *)
Theorem ring_buffer_init_resets_cursors (rb : AtomicEventRingBuffer) :
  head (ring_buffer_init rb) = 0
  /\ tail (ring_buffer_init rb) = 0
  /\ buffer (ring_buffer_init rb) = buffer rb.
Proof. repeat split. Qed.

(** ** The full test of the code *)

(** C2 (as amended): [enqueue_event] computes
    [next_tail = (current_tail + 1) % RING_SIZE] and returns -1 exactly when
    [next_tail == current_head]; otherwise it returns 0. *)
Theorem enqueue_full_iff_next_tail_meets_head
    (n : nat) (rb : AtomicEventRingBuffer) (event : Event) :
  (ret (enqueue_event RING_SIZE n rb event) = -1
     <-> u64 (tail rb + 1) mod RING_SIZE = head rb)
  /\ (u64 (tail rb + 1) mod RING_SIZE <> head rb
     -> ret (enqueue_event RING_SIZE n rb event) = 0).
Proof.
  rewrite enqueue_event_code.
  destruct (Z.eqb_spec (next_of (tail rb)) (head rb)); split;
    try split; intros; try done.
Qed.

(** ** A successful dequeue *)

(** C8: when [head <> tail], [dequeue_event] returns 0, [*event] holds the
    content of slot [head % RING_SIZE], and [head] has moved to
    [(head + 1) % RING_SIZE]; [tail] and the array are as before. *)
Theorem dequeue_nonempty_copies_and_advances
    (n : nat) (rb : AtomicEventRingBuffer) (event : Event) :
  0 < RING_SIZE ->
  wf RING_SIZE rb ->
  head rb <> tail rb ->
  let r := dequeue_event RING_SIZE n rb event in
  ret r = 0
  /\ buffer rb !! Z.to_nat (head rb mod RING_SIZE) = Some (event_out r)
  /\ head (rb_out r) = u64 (head rb + 1) mod RING_SIZE
  /\ tail (rb_out r) = tail rb
  /\ buffer (rb_out r) = buffer rb.
Proof.
  intros Hpos Hwf Hsome r. subst r.
  rewrite dequeue_event_ok by assumption. simpl.
  repeat split.
  assert (Hlt : (Z.to_nat (head rb mod RING_SIZE) < length (buffer rb))%nat).
  { rewrite Hwf. pose proof (Z.mod_pos_bound (head rb) RING_SIZE Hpos). lia. }
  apply lookup_lt_is_Some_2 in Hlt. destruct Hlt as [x Hx].
  rewrite Hx. reflexivity.
Qed.

(** ** The calls return *)

(** C9: whatever the state and however many compare-and-swap attempts fail,
    both functions return, with 0 or -1, after at most one more loop
    iteration than there were failed attempts; with no failed attempt the
    loop body runs once. *)
Theorem calls_return (n : nat) (rb : AtomicEventRingBuffer) (event : Event) :
  let e := enqueue_event RING_SIZE n rb event in
  let d := dequeue_event RING_SIZE n rb event in
  (ret e = 0 \/ ret e = -1)
  /\ (ret d = 0 \/ ret d = -1)
  /\ (1 <= iterations e <= S n)%nat
  /\ (1 <= iterations d <= S n)%nat
  /\ iterations (enqueue_event RING_SIZE 0 rb event) = 1%nat
  /\ iterations (dequeue_event RING_SIZE 0 rb event) = 1%nat.
Proof.
  cbv zeta.
  destruct (Z.eq_dec (next_of (tail rb)) (head rb)) as [Hfull|Hroom];
  destruct (Z.eq_dec (head rb) (tail rb)) as [Hempty|Hsome];
    rewrite ?enqueue_event_full, ?enqueue_event_ok,
            ?dequeue_event_empty, ?dequeue_event_ok by assumption;
    simpl; repeat split; auto; lia.
Qed.

(** ** Failed calls *)


End RingBufferFacts.

(** ** Sessions: the counts and the cursors *)

Section Sessions.

Variable RING_SIZE : Z.
Hypothesis RING_SIZE_range : 0 < RING_SIZE < 2 ^ 64.

Local Abbreviation next_of x := (u64 (x + 1) mod RING_SIZE).

(** No wrap-around at 64 bits for a cursor below [RING_SIZE]. *)
Lemma next_of_count (c : Z) :
  next_of (c mod RING_SIZE) = (c + 1) mod RING_SIZE.
Proof.
  pose proof (Z.mod_pos_bound c RING_SIZE ltac:(lia)) as Hc.
  unfold u64. rewrite (Z.mod_small (c mod RING_SIZE + 1)) by lia.
  apply Zplus_mod_idemp_l.
Qed.

Lemma next_of_cursor (x : Z) :
  0 <= x < RING_SIZE -> next_of x = (x + 1) mod RING_SIZE.
Proof.
  intros Hx. unfold u64. rewrite (Z.mod_small (x + 1)) by lia. reflexivity.
Qed.

(** Two counts at most [RING_SIZE] apart have the same residue only when
    they are equal or exactly [RING_SIZE] apart. *)
Lemma same_residue (a b : Z) :
  0 <= a - b <= RING_SIZE ->
  a mod RING_SIZE = b mod RING_SIZE <-> a - b = 0 \/ a - b = RING_SIZE.
Proof.
  intros Hab. split.
  - intros Hmod.
    pose proof (Z.div_mod a RING_SIZE ltac:(lia)) as Ha.
    pose proof (Z.div_mod b RING_SIZE ltac:(lia)) as Hb.
    rewrite Hmod in Ha.
    assert (Hk : a - b = RING_SIZE * (a / RING_SIZE - b / RING_SIZE)) by lia.
    assert (a / RING_SIZE - b / RING_SIZE = 0
            \/ a / RING_SIZE - b / RING_SIZE = 1) as [Hq|Hq] by nia.
    + left. rewrite Hq in Hk. lia.
    + right. rewrite Hq in Hk. lia.
  - intros [Heq|Hfar].
    + f_equal. lia.
    + replace a with (b + 1 * RING_SIZE) by lia. apply Z_mod_plus_full.
Qed.

Lemma invariant_fresh rb0 ev0 :
  wf RING_SIZE rb0 -> invariant RING_SIZE (fresh rb0 ev0).
Proof.
  intros Hwf. split; simpl; try lia.
  - exact Hwf.
  - rewrite Z.mod_0_l; lia.
  - rewrite Z.mod_0_l; lia.
Qed.

(** In a session that satisfies the invariant the two tests of the code
    read the occupancy. *)
Lemma full_test_reads_occupancy s :
  invariant RING_SIZE s ->
  next_of (tail (ring s)) = head (ring s) <-> occupancy s = RING_SIZE - 1.
Proof.
  intros [_ Hh Ht Ho Hb]. unfold occupancy.
  rewrite Hh, Ht, next_of_count.
  rewrite same_residue by lia. lia.
Qed.

Lemma empty_test_reads_occupancy s :
  invariant RING_SIZE s ->
  head (ring s) = tail (ring s) <-> occupancy s = 0.
Proof.
  intros [_ Hh Ht Ho Hb]. unfold occupancy.
  rewrite Hh, Ht. split.
  - intros Heq. symmetry in Heq. apply same_residue in Heq; lia.
  - intros Hz. f_equal. lia.
Qed.

Lemma invariant_call s c :
  invariant RING_SIZE s -> invariant RING_SIZE (call RING_SIZE s c).
Proof.
  intros Hinv. pose proof Hinv as [Hwf Hh Ht Ho Hb].
  destruct c as [|n event|n]; simpl.
  - split; simpl; try lia; try (rewrite Z.mod_0_l; lia). exact Hwf.
  - destruct (Z.eq_dec (next_of (tail (ring s))) (head (ring s))) as [Hfull|Hroom].
    + rewrite enqueue_event_full by assumption. simpl.
      split; simpl; assumption.
    + rewrite enqueue_event_ok by assumption. simpl.
      assert (occupancy s <> RING_SIZE - 1) as Hocc
        by (intros Hx; apply Hroom, full_test_reads_occupancy; assumption).
      unfold occupancy in Hocc.
      split; simpl;
        [ unfold wf in *; simpl; rewrite length_insert; exact Hwf
        | exact Hh
        | rewrite Ht; apply next_of_count
        | lia
        | lia ].
  - destruct (Z.eq_dec (head (ring s)) (tail (ring s))) as [Hempty|Hsome].
    + rewrite dequeue_event_empty by assumption. simpl.
      split; simpl; assumption.
    + rewrite dequeue_event_ok by assumption. simpl.
      assert (occupancy s <> 0) as Hocc
        by (intros Hx; apply Hsome, empty_test_reads_occupancy; assumption).
      unfold occupancy in Hocc.
      split; simpl;
        [ exact Hwf
        | rewrite Hh; apply next_of_count
        | exact Ht
        | lia
        | lia ].
Qed.

Lemma invariant_run calls s :
  invariant RING_SIZE s -> invariant RING_SIZE (run RING_SIZE calls s).
Proof.
  revert s. induction calls as [|c calls IH]; intros s Hinv; simpl.
  - exact Hinv.
  - apply IH, invariant_call, Hinv.
Qed.

Lemma invariant_reachable rb0 ev0 calls :
  wf RING_SIZE rb0 ->
  invariant RING_SIZE (run RING_SIZE calls (fresh rb0 ev0)).
Proof. intros Hwf. apply invariant_run, invariant_fresh, Hwf. Qed.

(** ** The ring as a first-in first-out queue *)

Lemma stores_fresh rb0 ev0 : stores RING_SIZE (fresh rb0 ev0) [].
Proof. split; [reflexivity | simpl; intros i Hi; lia]. Qed.

Lemma slot_in_range (c : Z) (rb : AtomicEventRingBuffer) :
  wf RING_SIZE rb ->
  (Z.to_nat (c mod RING_SIZE) < length (buffer rb))%nat.
Proof.
  intros Hwf. rewrite Hwf.
  pose proof (Z.mod_pos_bound c RING_SIZE ltac:(lia)). lia.
Qed.

Lemma slots_differ (a b : Z) :
  0 < a - b < RING_SIZE ->
  Z.to_nat (a mod RING_SIZE) <> Z.to_nat (b mod RING_SIZE).
Proof.
  intros Hab Heq.
  pose proof (Z.mod_pos_bound a RING_SIZE ltac:(lia)).
  pose proof (Z.mod_pos_bound b RING_SIZE ltac:(lia)).
  assert (Hmod : a mod RING_SIZE = b mod RING_SIZE) by lia.
  apply same_residue in Hmod; lia.
Qed.

Lemma stores_enqueue s q n event :
  invariant RING_SIZE s ->
  stores RING_SIZE s q ->
  occupancy s <> RING_SIZE - 1 ->
  stores RING_SIZE (call RING_SIZE s (CallEnqueue n event)) (q ++ [event]).
Proof.
  intros Hinv [Hlen Hslots] Hocc.
  pose proof Hinv as [Hwf Hh Ht Ho Hb].
  assert (Hroom : next_of (tail (ring s)) <> head (ring s))
    by (rewrite full_test_reads_occupancy; assumption).
  unfold stores, occupancy in *. simpl.
  rewrite enqueue_event_ok by assumption. simpl.
  rewrite length_app. simpl. split; [lia|].
  intros i Hi. rewrite Ht, Z.mod_mod by lia.
  destruct (decide (i = length q)) as [->|Hne].
  - replace (dequeued s + Z.of_nat (length q)) with (enqueued s) by lia.
    rewrite list_lookup_insert_eq by (apply slot_in_range; assumption).
    rewrite lookup_app_r by lia. rewrite Nat.sub_diag. reflexivity.
  - rewrite list_lookup_insert_ne by (apply slots_differ; lia).
    rewrite lookup_app_l by lia. apply Hslots. lia.
Qed.

Lemma stores_dequeue s oldest q n :
  invariant RING_SIZE s ->
  stores RING_SIZE s (oldest :: q) ->
  let s' := call RING_SIZE s (CallDequeue n) in
  stores RING_SIZE s' q
  /\ received s' = oldest
  /\ log s' = log s ++ [DequeueReturned 0 oldest].
Proof.
  intros Hinv [Hlen Hslots].
  pose proof Hinv as [Hwf Hh Ht Ho Hb].
  simpl in Hlen.
  assert (Hsome : head (ring s) <> tail (ring s)).
  { rewrite empty_test_reads_occupancy by assumption. lia. }
  assert (Hfirst : buffer (ring s) !! Z.to_nat (head (ring s) mod RING_SIZE)
                   = Some oldest).
  { rewrite Hh, Z.mod_mod by lia.
    specialize (Hslots 0%nat ltac:(simpl; lia)).
    rewrite Z.add_0_r in Hslots. exact Hslots. }
  unfold stores, occupancy in *. simpl.
  rewrite dequeue_event_ok by assumption. simpl.
  rewrite Hfirst. simpl. repeat split; [lia|].
  intros i Hi.
  specialize (Hslots (S i) ltac:(simpl; lia)). simpl in Hslots.
  rewrite <- Hslots. do 3 f_equal. lia.
Qed.

(** What a client sees returned by the ring is what it would see returned
    by a first-in first-out queue that holds at most [RING_SIZE - 1]
    events. *)
Lemma run_log_is_fifo_log calls s q :
  invariant RING_SIZE s ->
  stores RING_SIZE s q ->
  log (run RING_SIZE calls s) =
    log s ++ fifo_log (RING_SIZE - 1) calls q (received s).
Proof.
  revert s q. induction calls as [|c calls IH]; intros s q Hinv Hst.
  - simpl. rewrite app_nil_r. reflexivity.
  - pose proof (invariant_call s c Hinv) as Hinv'.
    change (run RING_SIZE (c :: calls) s)
      with (run RING_SIZE calls (call RING_SIZE s c)).
    destruct c as [|n event|n].
    + rewrite (IH _ [] Hinv') by (split; [reflexivity | simpl; intros; lia]).
      simpl. rewrite <- app_assoc. reflexivity.
    + cbn [fifo_log]. destruct Hst as [Hlen Hslots]. rewrite Hlen.
      destruct (Z.eqb_spec (occupancy s) (RING_SIZE - 1)) as [Hfull|Hroom].
      * assert (Hcall : call RING_SIZE s (CallEnqueue n event) =
                  {| ring := ring s; received := received s;
                     enqueued := enqueued s; dequeued := dequeued s;
                     log := log s ++ [EnqueueReturned (-1)] |}).
        { simpl. rewrite enqueue_event_full
            by (rewrite full_test_reads_occupancy; assumption).
          reflexivity. }
        rewrite Hcall in *.
        rewrite (IH _ q Hinv') by (split; assumption).
        simpl. rewrite <- app_assoc. reflexivity.
      * pose proof (stores_enqueue s q n event Hinv
                      (conj Hlen Hslots) Hroom) as Hst'.
        rewrite (IH _ _ Hinv' Hst').
        simpl. rewrite enqueue_event_ok
          by (rewrite full_test_reads_occupancy; assumption).
        simpl. rewrite <- app_assoc. reflexivity.
    + cbn [fifo_log]. destruct q as [|oldest q].
      * assert (Hempty : head (ring s) = tail (ring s)).
        { rewrite empty_test_reads_occupancy by assumption.
          destruct Hst as [Hlen _]. simpl in Hlen. lia. }
        assert (Hcall : call RING_SIZE s (CallDequeue n) =
                  {| ring := ring s; received := received s;
                     enqueued := enqueued s; dequeued := dequeued s;
                     log := log s ++ [DequeueReturned (-1) (received s)] |}).
        { simpl. rewrite dequeue_event_empty by assumption. reflexivity. }
        rewrite Hcall in *.
        rewrite (IH _ [] Hinv') by exact Hst.
        simpl. rewrite <- app_assoc. reflexivity.
      * destruct (stores_dequeue s oldest q n Hinv Hst) as (Hst' & Hrec & Hlog).
        rewrite (IH _ _ Hinv' Hst'), Hrec, Hlog, <- app_assoc. reflexivity.
Qed.

(** X1: from a freshly initialised ring, whatever the sequence of
    [ring_buffer_init], [enqueue_event] and [dequeue_event] calls, every
    call returns what a first-in first-out queue of at most
    [RING_SIZE - 1] events would return: events come out in the order they
    went in, each once, none is lost, and only a full queue refuses. *)
Lemma ring_refines_fifo rb0 ev0 calls :
  wf RING_SIZE rb0 ->
  log (run RING_SIZE calls (fresh rb0 ev0)) =
    fifo_log (RING_SIZE - 1) calls [] ev0.
Proof.
  intros Hwf.
  rewrite (run_log_is_fifo_log calls (fresh rb0 ev0) []).
  - reflexivity.
  - apply invariant_fresh, Hwf.
  - apply stores_fresh.
Qed.

(** ** Full and empty *)

(** C1: in every state reached from an initialised ring by any sequence of
    [ring_buffer_init], [enqueue_event] and [dequeue_event] calls, an
    enqueue attempt returns -1 exactly when [RING_SIZE - 1] events are in
    the queue, and a dequeue attempt returns -1 exactly when none is. *)
Theorem full_and_empty_follow_occupancy
    (rb0 : AtomicEventRingBuffer) (ev0 : Event) (calls : list Call)
    (n : nat) (event : Event) :
  wf RING_SIZE rb0 ->
  let s := run RING_SIZE calls (fresh rb0 ev0) in
  (ret (enqueue_event RING_SIZE n (ring s) event) = -1
     <-> occupancy s = RING_SIZE - 1)
  /\ (ret (dequeue_event RING_SIZE n (ring s) event) = -1
     <-> occupancy s = 0).
Proof.
  intros Hwf s.
  pose proof (invariant_reachable rb0 ev0 calls Hwf) as Hinv. fold s in Hinv.
  rewrite enqueue_event_code, dequeue_event_code.
  rewrite <- (full_test_reads_occupancy s Hinv).
  rewrite <- (empty_test_reads_occupancy s Hinv).
  split.
  - destruct (Z.eqb_spec (next_of (tail (ring s))) (head (ring s))); split;
      intros; try done.
  - destruct (Z.eqb_spec (head (ring s)) (tail (ring s))); split;
      intros; try done.
Qed.

(** ** The capacity bound *)

(** C4: in every reachable state the number of events in the queue is at
    most [RING_SIZE - 1] (and at least 0); it is the difference of the
    stored cursors taken modulo [RING_SIZE], and that difference itself is
    at most [RING_SIZE - 1] too. *)
Theorem occupancy_at_most_capacity_minus_one
    (rb0 : AtomicEventRingBuffer) (ev0 : Event) (calls : list Call) :
  wf RING_SIZE rb0 ->
  let s := run RING_SIZE calls (fresh rb0 ev0) in
  0 <= occupancy s <= RING_SIZE - 1
  /\ occupancy s = (tail (ring s) - head (ring s)) mod RING_SIZE
  /\ tail (ring s) - head (ring s) <= RING_SIZE - 1.
Proof.
  intros Hwf s.
  pose proof (invariant_reachable rb0 ev0 calls Hwf) as [_ Hh Ht Ho Hb].
  fold s in Hh, Ht, Ho, Hb. unfold occupancy.
  split; [lia|]. split.
  - rewrite Hh, Ht, <- Zminus_mod. symmetry. apply Z.mod_small. lia.
  - pose proof (Z.mod_pos_bound (enqueued s) RING_SIZE ltac:(lia)).
    pose proof (Z.mod_pos_bound (dequeued s) RING_SIZE ltac:(lia)).
    lia.
Qed.

(** ** The cursors *)

(** C3 (as amended): the stored cursors are the counts of successful
    enqueues and dequeues reduced modulo [RING_SIZE]: in every reachable
    state both lie in [0, RING_SIZE), a successful enqueue replaces [tail]
    by [(tail + 1) mod RING_SIZE] and leaves [head], a successful dequeue
    replaces [head] by [(head + 1) mod RING_SIZE] and leaves [tail], and
    the dequeues that succeeded never outnumber the enqueues that did. *)
Theorem cursors_advance_modulo_ring_size
    (rb0 : AtomicEventRingBuffer) (ev0 : Event) (calls : list Call)
    (n : nat) (event : Event) :
  wf RING_SIZE rb0 ->
  let s := run RING_SIZE calls (fresh rb0 ev0) in
  let e := enqueue_event RING_SIZE n (ring s) event in
  let d := dequeue_event RING_SIZE n (ring s) event in
  (0 <= head (ring s) < RING_SIZE /\ 0 <= tail (ring s) < RING_SIZE)
  /\ (tail (ring s) = enqueued s mod RING_SIZE
      /\ head (ring s) = dequeued s mod RING_SIZE)
  /\ 0 <= dequeued s <= enqueued s
  /\ (ret e = 0 ->
        tail (rb_out e) = (tail (ring s) + 1) mod RING_SIZE
        /\ head (rb_out e) = head (ring s))
  /\ (ret d = 0 ->
        head (rb_out d) = (head (ring s) + 1) mod RING_SIZE
        /\ tail (rb_out d) = tail (ring s)).
Proof.
  intros Hwf s e d.
  pose proof (invariant_reachable rb0 ev0 calls Hwf) as [_ Hh Ht Ho Hb].
  fold s in Hh, Ht, Ho, Hb.
  pose proof (Z.mod_pos_bound (enqueued s) RING_SIZE ltac:(lia)) as Hte.
  pose proof (Z.mod_pos_bound (dequeued s) RING_SIZE ltac:(lia)) as Hhe.
  rewrite <- Ht in Hte. rewrite <- Hh in Hhe.
  split; [split; assumption|]. split; [split; assumption|].
  split; [assumption|]. split.
  - subst e.
    destruct (Z.eq_dec (next_of (tail (ring s))) (head (ring s))) as [Hfull|Hroom].
    + rewrite enqueue_event_full by assumption. simpl. lia.
    + rewrite enqueue_event_ok by assumption. simpl. intros _.
      split; [apply next_of_cursor; assumption | reflexivity].
  - subst d.
    destruct (Z.eq_dec (head (ring s)) (tail (ring s))) as [Hempty|Hsome].
    + rewrite dequeue_event_empty by assumption. simpl. lia.
    + rewrite dequeue_event_ok by assumption. simpl. intros _.
      split; [apply next_of_cursor; assumption | reflexivity].
Qed.

End Sessions.

(** ** The five-event scenario *)

(** C5 (as amended): at capacity 4, from a freshly initialised ring, the
    enqueues of A, B and C return 0 and those of D and E return -1; the
    consumer then receives A, B, C in that order, its next attempt returns
    -1 (and leaves its event as it was), and enqueueing E then returns 0. *)
Theorem scenario_capacity_four (rb0 : AtomicEventRingBuffer) (ev0 : Event) :
  wf Scenario.Capacity rb0 ->
  log (run Scenario.Capacity (Scenario.script 4) (fresh rb0 ev0)) =
    [EnqueueReturned 0; EnqueueReturned 0; EnqueueReturned 0;
     EnqueueReturned (-1); EnqueueReturned (-1);
     DequeueReturned 0 Scenario.A; DequeueReturned 0 Scenario.B;
     DequeueReturned 0 Scenario.C; DequeueReturned (-1) Scenario.C;
     EnqueueReturned 0].
Proof.
  destruct rb0 as [h t cells]. intros Hcells. unfold wf in Hcells.
  simpl in Hcells.
  destruct cells as [|c0 [|c1 [|c2 [|c3 [|c4 cells]]]]]; try discriminate Hcells.
  vm_compute. reflexivity.
Qed.

(** The outcomes the scenario lists are those of a ring of five cells. *)
Lemma scenario_capacity_five (rb0 : AtomicEventRingBuffer) (ev0 : Event) :
  wf 5 rb0 ->
  log (run 5 (Scenario.script 5) (fresh rb0 ev0)) =
    [EnqueueReturned 0; EnqueueReturned 0; EnqueueReturned 0;
     EnqueueReturned 0; EnqueueReturned (-1);
     DequeueReturned 0 Scenario.A; DequeueReturned 0 Scenario.B;
     DequeueReturned 0 Scenario.C; DequeueReturned 0 Scenario.D;
     DequeueReturned (-1) Scenario.D;
     EnqueueReturned 0].
Proof.
  destruct rb0 as [h t cells]. intros Hcells. unfold wf in Hcells.
  simpl in Hcells.
  destruct cells as [|c0 [|c1 [|c2 [|c3 [|c4 [|c5 cells]]]]]];
    try discriminate Hcells.
  vm_compute. reflexivity.
Qed.

(** ** Claim, then write *)

(** A producer that is not interrupted does what [enqueue_event] does. *)
Lemma producer_alone (RING_SIZE : Z) (m : AtomicEventRingBuffer)
    (event : Event) (c : Interleaved.Consumer) :
  let w := Interleaved.schedule RING_SIZE [Interleaved.P; Interleaved.P]
             (Interleaved.mkWorld m (Interleaved.PEnter event) c) in
  Interleaved.mem w = rb_out (enqueue_event RING_SIZE 0 m event)
  /\ Interleaved.producer w =
       Interleaved.PReturned (ret (enqueue_event RING_SIZE 0 m event)).
Proof.
  unfold enqueue_event. simpl.
  destruct (u64 (tail m + 1) mod RING_SIZE =? head m); simpl; auto.
Qed.

(** C6 (the code departs from it): in [enqueue_event] the compare-and-swap
    that advances [tail] comes before the store of the event.  After the
    producer's first phase the ring already counts one event while slot 0
    still holds the old content; a consumer scheduled at that point gets
    return code 0 and the old event, and the producer's event, stored
    afterwards, is in a ring whose cursors say it is empty. *)
Theorem tail_advances_before_the_event_is_stored :
  let w1 := Interleaved.schedule Src.RING_SIZE [Interleaved.P]
              Interleaved.world0 in
  let w3 := Interleaved.schedule Src.RING_SIZE
              [Interleaved.P; Interleaved.C; Interleaved.P]
              Interleaved.world0 in
  (tail (Interleaved.mem w1) = 1
   /\ head (Interleaved.mem w1) = 0
   /\ buffer (Interleaved.mem w1) !! 0%nat = Some Interleaved.stale)
  /\ Interleaved.consumer w3 = Interleaved.CReturned 0 Interleaved.stale
  /\ Interleaved.stale <> Interleaved.fresh_event
  /\ Interleaved.producer w3 = Interleaved.PReturned 0
  /\ buffer (Interleaved.mem w3) !! 0%nat = Some Interleaved.fresh_event
  /\ head (Interleaved.mem w3) = tail (Interleaved.mem w3)
  /\ ret (dequeue_event Src.RING_SIZE 0 (Interleaved.mem w3) (mkEvent 0 0)) = -1.
Proof.
  vm_compute. repeat split; discriminate.
Qed.

(** * Where the code and the wording part *)

(** C2, as worded, fails on the source's ring of 1024 cells: after 1023
    enqueues [tail] is 1023 and [head] is 0; [nextWrite - readCursor] is
    1024, which is not greater than the capacity, yet [enqueue_event]
    returns -1. *)
Lemma spec_full_test_misses_the_full_ring :
  let s := run Src.RING_SIZE (Src.enqueues 1023)
             (fresh Src.zeroed (mkEvent 0 0)) in
  tail (ring s) = 1023
  /\ head (ring s) = 0
  /\ ret (enqueue_event Src.RING_SIZE 0 (ring s) (Src.sample 1023)) = -1
  /\ spec_next_write (tail (ring s)) - head (ring s) = 1024
  /\ spec_full Src.RING_SIZE (tail (ring s)) (head (ring s)) = false
  /\ ~ (tail (ring s) + 1 - head (ring s) > Src.RING_SIZE).
Proof.
  vm_compute. repeat split. intros H. discriminate H.
Qed.

(** C3, as worded, fails on the source's ring: with 1023 events enqueued
    and one dequeued, the next enqueue succeeds and takes [tail] from 1023
    to 0, not to 1024, after which [head] is above [tail]. *)
Lemma tail_wraps_to_zero :
  let s := run Src.RING_SIZE (Src.enqueues 1023 ++ [CallDequeue 0])
             (fresh Src.zeroed (mkEvent 0 0)) in
  let e := enqueue_event Src.RING_SIZE 0 (ring s) (Src.sample 1023) in
  tail (ring s) = 1023
  /\ head (ring s) = 1
  /\ ret e = 0
  /\ tail (rb_out e) = 0
  /\ tail (rb_out e) <> tail (ring s) + 1
  /\ tail (rb_out e) < tail (ring s)
  /\ ~ (head (rb_out e) <= tail (rb_out e)).
Proof.
  vm_compute. repeat split; intros H; try discriminate H.
  apply H. reflexivity.
Qed.

(** C5, as worded, fails at capacity 4: the fourth enqueue, of D, is
    already refused. *)
Lemma fourth_enqueue_is_refused :
  log (run Scenario.Capacity Scenario.producer
         (fresh (Scenario.memory 4) (mkEvent 0 0))) =
    [EnqueueReturned 0; EnqueueReturned 0; EnqueueReturned 0;
     EnqueueReturned (-1); EnqueueReturned (-1)]
  /\ log (run Scenario.Capacity Scenario.producer
            (fresh (Scenario.memory 4) (mkEvent 0 0))) !! 3%nat
     <> Some (EnqueueReturned 0).
Proof.
  vm_compute. split; [reflexivity | discriminate].
Qed.


(** * The statements at concrete inputs *)

Lemma src_ring_size_range : 0 < Src.RING_SIZE < 2 ^ 64.
Proof. unfold Src.RING_SIZE. lia. Defined.

Lemma src_zeroed_wf : wf Src.RING_SIZE Src.zeroed.
Proof. reflexivity. Defined.

Lemma full_and_empty_follow_occupancy_witness :
  wf Src.RING_SIZE Src.zeroed
  /\ let s := run Src.RING_SIZE (Src.enqueues 3 ++ [CallDequeue 0])
                (fresh Src.zeroed (mkEvent 0 0)) in
     (ret (enqueue_event Src.RING_SIZE 0 (ring s) (Src.sample 3)) = -1
        <-> occupancy s = Src.RING_SIZE - 1)
     /\ (ret (dequeue_event Src.RING_SIZE 0 (ring s) (Src.sample 3)) = -1
        <-> occupancy s = 0).
Proof.
  split; [exact src_zeroed_wf|].
  exact (full_and_empty_follow_occupancy Src.RING_SIZE src_ring_size_range
           Src.zeroed (mkEvent 0 0) (Src.enqueues 3 ++ [CallDequeue 0])
           0%nat (Src.sample 3) src_zeroed_wf).
Defined.

Lemma enqueue_full_iff_next_tail_meets_head_witness :
  u64 (tail Src.zeroed + 1) mod Src.RING_SIZE <> head Src.zeroed
  /\ ret (enqueue_event Src.RING_SIZE 0 Src.zeroed (Src.sample 0)) = 0.
Proof.
  assert (Hroom : u64 (tail Src.zeroed + 1) mod Src.RING_SIZE
                  <> head Src.zeroed) by (vm_compute; discriminate).
  split; [exact Hroom|].
  exact (proj2 (enqueue_full_iff_next_tail_meets_head Src.RING_SIZE 0%nat
                  Src.zeroed (Src.sample 0)) Hroom).
Defined.

Lemma cursors_advance_modulo_ring_size_witness :
  wf Src.RING_SIZE Src.zeroed
  /\ let s := run Src.RING_SIZE (Src.enqueues 3 ++ [CallDequeue 0])
                (fresh Src.zeroed (mkEvent 0 0)) in
     tail (rb_out (enqueue_event Src.RING_SIZE 0 (ring s) (Src.sample 3)))
       = (tail (ring s) + 1) mod Src.RING_SIZE
     /\ head (rb_out (dequeue_event Src.RING_SIZE 0 (ring s) (Src.sample 3)))
       = (head (ring s) + 1) mod Src.RING_SIZE.
Proof.
  split; [exact src_zeroed_wf|].
  pose proof (cursors_advance_modulo_ring_size Src.RING_SIZE
                src_ring_size_range Src.zeroed (mkEvent 0 0)
                (Src.enqueues 3 ++ [CallDequeue 0]) 0%nat (Src.sample 3)
                src_zeroed_wf) as (_ & _ & _ & He & Hd).
  split.
  - apply He. vm_compute. reflexivity.
  - apply Hd. vm_compute. reflexivity.
Defined.

Lemma occupancy_at_most_capacity_minus_one_witness :
  wf Src.RING_SIZE Src.zeroed
  /\ let s := run Src.RING_SIZE (Src.enqueues 3 ++ [CallDequeue 0])
                (fresh Src.zeroed (mkEvent 0 0)) in
     0 <= occupancy s <= Src.RING_SIZE - 1
     /\ occupancy s = (tail (ring s) - head (ring s)) mod Src.RING_SIZE
     /\ tail (ring s) - head (ring s) <= Src.RING_SIZE - 1.
Proof.
  split; [exact src_zeroed_wf|].
  exact (occupancy_at_most_capacity_minus_one Src.RING_SIZE
           src_ring_size_range Src.zeroed (mkEvent 0 0)
           (Src.enqueues 3 ++ [CallDequeue 0]) src_zeroed_wf).
Defined.

Lemma scenario_capacity_four_witness :
  wf Scenario.Capacity (Scenario.memory 4)
  /\ log (run Scenario.Capacity (Scenario.script 4)
            (fresh (Scenario.memory 4) (mkEvent 0 0))) =
       [EnqueueReturned 0; EnqueueReturned 0; EnqueueReturned 0;
        EnqueueReturned (-1); EnqueueReturned (-1);
        DequeueReturned 0 Scenario.A; DequeueReturned 0 Scenario.B;
        DequeueReturned 0 Scenario.C; DequeueReturned (-1) Scenario.C;
        EnqueueReturned 0].
Proof.
  assert (Hwf : wf Scenario.Capacity (Scenario.memory 4)) by reflexivity.
  split; [exact Hwf|].
  exact (scenario_capacity_four (Scenario.memory 4) (mkEvent 0 0) Hwf).
Defined.

Lemma dequeue_nonempty_copies_and_advances_witness :
  let rb := {| head := 0; tail := 1;
               buffer := <[0%nat := Src.sample 5]> (buffer Src.zeroed) |} in
  let r := dequeue_event Src.RING_SIZE 0 rb (mkEvent 0 0) in
  (0 < Src.RING_SIZE /\ wf Src.RING_SIZE rb /\ head rb <> tail rb)
  /\ ret r = 0
  /\ buffer rb !! Z.to_nat (head rb mod Src.RING_SIZE) = Some (event_out r)
  /\ head (rb_out r) = u64 (head rb + 1) mod Src.RING_SIZE
  /\ tail (rb_out r) = tail rb
  /\ buffer (rb_out r) = buffer rb.
Proof.
  intros rb r.
  assert (Hpos : 0 < Src.RING_SIZE) by reflexivity.
  assert (Hwf : wf Src.RING_SIZE rb) by reflexivity.
  assert (Hne : head rb <> tail rb) by (simpl; discriminate).
  split; [auto|].
  exact (dequeue_nonempty_copies_and_advances Src.RING_SIZE 0%nat rb
           (mkEvent 0 0) Hpos Hwf Hne).
Defined.

(** * Further properties of the three functions *)

Section Calls.

Variable RING_SIZE : Z.

Local Abbreviation next_of x := (u64 (x + 1) mod RING_SIZE).

(** ** Failed compare-and-swap attempts *)

(** X2: with no other thread at work during the call, the attempts of the
    weak compare-and-swap that fail although the cursor still has the value
    loaded leave no trace: return code, structure and event are those of
    the call in which none fails.  Only the number of loop iterations
    differs: one more than these failures when the call returns 0, one when
    it returns -1. *)
Theorem spurious_failures_leave_no_trace
    (n : nat) (rb : AtomicEventRingBuffer) (event : Event) :
  let e := enqueue_event RING_SIZE n rb event in
  let e0 := enqueue_event RING_SIZE 0 rb event in
  let d := dequeue_event RING_SIZE n rb event in
  let d0 := dequeue_event RING_SIZE 0 rb event in
  (ret e = ret e0 /\ rb_out e = rb_out e0 /\ event_out e = event_out e0)
  /\ (ret d = ret d0 /\ rb_out d = rb_out d0 /\ event_out d = event_out d0)
  /\ (ret e = 0 -> iterations e = S n)
  /\ (ret e = -1 -> iterations e = 1%nat)
  /\ (ret d = 0 -> iterations d = S n)
  /\ (ret d = -1 -> iterations d = 1%nat).
Proof.
  cbv zeta.
  destruct (Z.eq_dec (next_of (tail rb)) (head rb)) as [Hfull|Hroom];
  destruct (Z.eq_dec (head rb) (tail rb)) as [Hempty|Hsome];
    rewrite ?enqueue_event_full, ?enqueue_event_ok,
            ?dequeue_event_empty, ?dequeue_event_ok by assumption;
    simpl; repeat split; intros; solve [reflexivity | lia].
Qed.

(** ** What a successful enqueue writes *)

(** X3: an enqueue that returns 0 stores the event in slot
    [tail % RING_SIZE] and touches nothing else of the array: every other
    slot, the size of the array and [head] are as before. *)
Theorem enqueue_writes_one_slot
    (n : nat) (rb : AtomicEventRingBuffer) (event : Event) :
  0 < RING_SIZE ->
  wf RING_SIZE rb ->
  ret (enqueue_event RING_SIZE n rb event) = 0 ->
  let r := enqueue_event RING_SIZE n rb event in
  buffer (rb_out r) !! Z.to_nat (tail rb mod RING_SIZE) = Some event
  /\ (forall i : nat,
        i <> Z.to_nat (tail rb mod RING_SIZE) ->
        buffer (rb_out r) !! i = buffer rb !! i)
  /\ length (buffer (rb_out r)) = length (buffer rb)
  /\ head (rb_out r) = head rb.
Proof.
  intros Hpos Hwf Hret r. subst r. revert Hret.
  destruct (Z.eq_dec (next_of (tail rb)) (head rb)) as [Hfull|Hroom].
  - rewrite enqueue_event_full by assumption. simpl. lia.
  - rewrite enqueue_event_ok by assumption. simpl. intros _.
    split; [|split; [|split]].
    + apply list_lookup_insert_eq. rewrite Hwf.
      pose proof (Z.mod_pos_bound (tail rb) RING_SIZE Hpos). lia.
    + intros i Hi. apply list_lookup_insert_ne. congruence.
    + apply length_insert.
    + reflexivity.
Qed.

(** ** Enqueue, then dequeue *)

(** X4: on an empty ring (cursors equal, below [RING_SIZE]) of more than
    one cell, an enqueue followed by a dequeue returns 0 twice, hands the
    enqueued event to the consumer, and leaves the ring empty again, one
    position further. *)
Theorem enqueue_then_dequeue_on_empty
    (n m : nat) (rb : AtomicEventRingBuffer) (event ev : Event) :
  1 < RING_SIZE < 2 ^ 64 ->
  wf RING_SIZE rb ->
  0 <= head rb < RING_SIZE ->
  tail rb = head rb ->
  let e := enqueue_event RING_SIZE n rb event in
  let d := dequeue_event RING_SIZE m (rb_out e) ev in
  ret e = 0
  /\ ret d = 0
  /\ event_out d = event
  /\ head (rb_out d) = tail (rb_out d)
  /\ head (rb_out d) = (head rb + 1) mod RING_SIZE.
Proof.
  intros Hrange Hwf Hhead Htail e d.
  assert (Hnext : next_of (tail rb) = (head rb + 1) mod RING_SIZE).
  { rewrite Htail. unfold u64. rewrite (Z.mod_small (head rb + 1)) by lia.
    reflexivity. }
  assert (Hroom : next_of (tail rb) <> head rb).
  { rewrite Hnext.
    destruct (Z.eq_dec (head rb + 1) RING_SIZE) as [Hlast|Hnot].
    - rewrite Hlast, Z.mod_same by lia. lia.
    - rewrite Z.mod_small by lia. lia. }
  subst d e. rewrite enqueue_event_ok by assumption. simpl.
  rewrite dequeue_event_ok by (simpl; congruence). simpl.
  rewrite Htail.
  rewrite list_lookup_insert_eq.
  - simpl. rewrite <- Htail, Hnext, Htail. repeat split.
  - rewrite Hwf. pose proof (Z.mod_pos_bound (head rb) RING_SIZE ltac:(lia)).
    lia.
Qed.

(** ** Two claims in a row *)

(** X5: two producers that both got through the compare-and-swap, one after
    the other, hold different slots, and their two stores give the same
    structure in either order. *)
Theorem successive_claims_take_different_slots
    (n m k1 k2 : nat) (rb rb1 rb2 : AtomicEventRingBuffer)
    (t1 t2 : Z) (e1 e2 : Event) :
  1 < RING_SIZE < 2 ^ 64 ->
  0 <= tail rb < RING_SIZE ->
  enqueue_claim RING_SIZE n rb = (Claimed t1, rb1, k1) ->
  enqueue_claim RING_SIZE m rb1 = (Claimed t2, rb2, k2) ->
  Z.to_nat (t1 mod RING_SIZE) <> Z.to_nat (t2 mod RING_SIZE)
  /\ enqueue_write RING_SIZE (enqueue_write RING_SIZE rb2 t1 e1) t2 e2
     = enqueue_write RING_SIZE (enqueue_write RING_SIZE rb2 t2 e2) t1 e1.
Proof.
  intros Hrange Htail Hc1 Hc2.
  destruct (Z.eq_dec (next_of (tail rb)) (head rb)) as [Hfull|Hroom].
  { rewrite enqueue_claim_full in Hc1 by assumption. discriminate Hc1. }
  rewrite enqueue_claim_ok in Hc1 by assumption.
  injection Hc1 as <- <- _.
  destruct (Z.eq_dec (next_of (next_of (tail rb))) (head rb)) as [Hfull2|Hroom2].
  { rewrite enqueue_claim_full in Hc2 by (simpl; assumption).
    discriminate Hc2. }
  rewrite enqueue_claim_ok in Hc2 by (simpl; assumption).
  simpl in Hc2. injection Hc2 as <- <- _.
  assert (Hslots : Z.to_nat (tail rb mod RING_SIZE)
                   <> Z.to_nat (next_of (tail rb) mod RING_SIZE)).
  { unfold u64. rewrite (Z.mod_small (tail rb + 1)) by lia.
    rewrite Z.mod_mod by lia. rewrite (Z.mod_small (tail rb)) by lia.
    destruct (Z.eq_dec (tail rb + 1) RING_SIZE) as [Hlast|Hnot].
    - rewrite Hlast, Z.mod_same by lia. lia.
    - rewrite Z.mod_small by lia. lia. }
  split; [exact Hslots|].
  unfold enqueue_write. simpl. f_equal.
  apply list_insert_insert_ne. congruence.
Qed.

End Calls.

(** * Other threads *)

Section Contention.

Variable RING_SIZE : Z.

Local Abbreviation next_of x := (u64 (x + 1) mod RING_SIZE).

(** With nobody else at work the loop is that of [dequeue_event]. *)
Lemma dequeue_event_among_nobody (rb : AtomicEventRingBuffer) (event : Event) :
  dequeue_event_among RING_SIZE [] rb event = dequeue_event RING_SIZE 0 rb event.
Proof. reflexivity. Qed.

(** X6: whatever the other threads do between the attempts of a dequeue,
    the call returns 0 or -1, never writes [tail] or the array, and writes
    [head] only when it returns 0: the structure it leaves is the one the
    others made (after some of their steps), found empty when the call
    returns -1, and with [head] moved one position on when it returns 0. *)
Theorem dequeue_among_others_writes_head_only
    (others : list (AtomicEventRingBuffer -> AtomicEventRingBuffer))
    (rb : AtomicEventRingBuffer) (event : Event) :
  let r := dequeue_event_among RING_SIZE others rb event in
  exists k : nat,
    let m := foldl (fun x other => other x) rb (take k others) in
    (ret r = -1 /\ rb_out r = m /\ head m = tail m)
    \/ (ret r = 0
        /\ rb_out r =
             {| head := next_of (head m); tail := tail m; buffer := buffer m |}).
Proof.
  revert rb event. induction others as [|other rest IH]; intros rb event.
  - exists 0%nat. simpl.
    destruct (Z.eqb_spec (head rb) (tail rb)); simpl; auto.
  - simpl. destruct (Z.eqb_spec (head rb) (tail rb)) as [Hempty|Hsome].
    + exists 0%nat. simpl. auto.
    + destruct (Z.eqb_spec (head (other rb)) (head rb)) as [Hsame|Hmoved].
      * exists 1%nat. simpl. right. rewrite Hsame. auto.
      * destruct (IH (other rb)
                    (default event
                       (buffer rb !! Z.to_nat (head rb mod RING_SIZE))))
          as [k Hk].
        exists (S k). simpl. exact Hk.
Qed.

(** X7: a dequeue can return -1 after it has overwritten the caller's
    event.  On a ring that holds one event, if another consumer takes that
    event between this call's copy of the slot and its compare-and-swap,
    this call returns -1 with the slot's content in [*event]; the other
    consumer received the same event with return code 0. *)
Theorem empty_after_losing_the_race
    (rb : AtomicEventRingBuffer) (event ev' : Event) :
  0 < RING_SIZE ->
  wf RING_SIZE rb ->
  head rb <> tail rb ->
  u64 (head rb + 1) mod RING_SIZE = tail rb ->
  let winner := dequeue_event RING_SIZE 0 rb ev' in
  let r := dequeue_event_among RING_SIZE
             [fun m => rb_out (dequeue_event RING_SIZE 0 m ev')] rb event in
  ret r = -1
  /\ buffer rb !! Z.to_nat (head rb mod RING_SIZE) = Some (event_out r)
  /\ ret winner = 0
  /\ event_out winner = event_out r
  /\ rb_out r = rb_out winner.
Proof.
  intros Hpos Hwf Hsome Hone winner r. subst winner r.
  assert (Hlt : (Z.to_nat (head rb mod RING_SIZE) < length (buffer rb))%nat).
  { rewrite Hwf. pose proof (Z.mod_pos_bound (head rb) RING_SIZE Hpos). lia. }
  apply lookup_lt_is_Some_2 in Hlt. destruct Hlt as [x Hx].
  rewrite dequeue_event_ok by assumption.
  cbn [dequeue_event_among].
  rewrite dequeue_event_ok by assumption.
  cbn [rb_out head tail buffer].
  apply Z.eqb_neq in Hsome. rewrite Hsome.
  apply Z.eqb_neq in Hsome.
  rewrite Hone.
  assert (Hmoved : (tail rb =? head rb) = false) by (apply Z.eqb_neq; congruence).
  rewrite Hmoved, Z.eqb_refl. simpl. rewrite Hx. simpl. auto.
Qed.

(** The three steps of the two threads. *)
Lemma step_claim rb event c :
  next_of (tail rb) <> head rb ->
  Interleaved.step RING_SIZE
    (Interleaved.mkWorld rb (Interleaved.PEnter event) c) Interleaved.P
  = Interleaved.mkWorld
      {| head := head rb; tail := next_of (tail rb); buffer := buffer rb |}
      (Interleaved.PHolds (tail rb) event) c.
Proof.
  intros Hroom. unfold Interleaved.step. simpl Interleaved.producer.
  simpl Interleaved.mem. rewrite enqueue_claim_ok by assumption. reflexivity.
Qed.

Lemma step_store m current_tail event c :
  Interleaved.step RING_SIZE
    (Interleaved.mkWorld m (Interleaved.PHolds current_tail event) c)
    Interleaved.P
  = Interleaved.mkWorld (enqueue_write RING_SIZE m current_tail event)
      (Interleaved.PReturned 0) c.
Proof. reflexivity. Qed.

Lemma step_consume m p ev :
  Interleaved.step RING_SIZE
    (Interleaved.mkWorld m p (Interleaved.CEnter ev)) Interleaved.C
  = Interleaved.mkWorld (rb_out (dequeue_event RING_SIZE 0 m ev)) p
      (Interleaved.CReturned (ret (dequeue_event RING_SIZE 0 m ev))
         (event_out (dequeue_event RING_SIZE 0 m ev))).
Proof. reflexivity. Qed.

(** X8: on an empty ring, a consumer that runs between the producer's
    compare-and-swap and the producer's store gets return code 0 and what
    the slot held before, whatever the producer enqueues; the producer's
    event is stored afterwards, in a ring whose cursors are equal again, so
    that a dequeue then returns -1. *)
Theorem consumer_between_claim_and_store
    (rb : AtomicEventRingBuffer) (event ev old : Event) :
  1 < RING_SIZE < 2 ^ 64 ->
  wf RING_SIZE rb ->
  0 <= head rb < RING_SIZE ->
  tail rb = head rb ->
  buffer rb !! Z.to_nat (head rb) = Some old ->
  let w := Interleaved.schedule RING_SIZE
             [Interleaved.P; Interleaved.C; Interleaved.P]
             (Interleaved.mkWorld rb (Interleaved.PEnter event)
                (Interleaved.CEnter ev)) in
  Interleaved.consumer w = Interleaved.CReturned 0 old
  /\ Interleaved.producer w = Interleaved.PReturned 0
  /\ buffer (Interleaved.mem w) !! Z.to_nat (head rb) = Some event
  /\ head (Interleaved.mem w) = tail (Interleaved.mem w)
  /\ ret (dequeue_event RING_SIZE 0 (Interleaved.mem w) ev) = -1.
Proof.
  intros Hrange Hwf Hhead Htail Hold w.
  assert (Hnext : next_of (tail rb) = (head rb + 1) mod RING_SIZE).
  { rewrite Htail. unfold u64. rewrite (Z.mod_small (head rb + 1)) by lia.
    reflexivity. }
  assert (Hroom : next_of (tail rb) <> head rb).
  { rewrite Hnext.
    destruct (Z.eq_dec (head rb + 1) RING_SIZE) as [Hlast|Hnot].
    - rewrite Hlast, Z.mod_same by lia. lia.
    - rewrite Z.mod_small by lia. lia. }
  assert (Hw : w = Interleaved.mkWorld
                 {| head := next_of (tail rb); tail := next_of (tail rb);
                    buffer := <[Z.to_nat (head rb) := event]> (buffer rb) |}
                 (Interleaved.PReturned 0) (Interleaved.CReturned 0 old)).
  { subst w. unfold Interleaved.schedule. cbn [fold_left foldl].
    rewrite step_claim by assumption.
    rewrite step_consume.
    rewrite dequeue_event_ok by (simpl; congruence).
    cbn [ret rb_out event_out head tail buffer].
    rewrite step_store. unfold enqueue_write. cbn [head tail buffer].
    rewrite <- Htail at 1. rewrite Htail at 2.
    rewrite Htail, (Z.mod_small (head rb)) by lia.
    rewrite Hold. reflexivity. }
  rewrite Hw. cbn [Interleaved.consumer Interleaved.producer Interleaved.mem].
  rewrite dequeue_event_code. cbn [head tail buffer].
  rewrite Z.eqb_refl. repeat split.
  apply list_lookup_insert_eq. rewrite Hwf. lia.
Qed.

End Contention.

(** * Calls that return -1 *)

Section FailedCalls.

Variable RING_SIZE : Z.

(** The structure after the first [k] interferences. *)
Local Abbreviation after k others rb :=
  (foldl (fun x (other : AtomicEventRingBuffer -> AtomicEventRingBuffer) =>
            other x) rb (take k others)).




End FailedCalls.

(** * The threads of the demonstration driver *)

Section DemoThreads.

Variable RING_SIZE : Z.
Hypothesis RING_SIZE_range : 0 < RING_SIZE < 2 ^ 64.
Variable EVENTS_PER_THREAD : Z.
Variable NUM_PRODUCERS : Z.
Variable NUM_CONSUMERS : Z.

Local Abbreviation next_of x := (u64 (x + 1) mod RING_SIZE).
Local Abbreviation the_quota :=
  (Demo.quota EVENTS_PER_THREAD NUM_PRODUCERS NUM_CONSUMERS).

(** ** producer_thread *)



Lemma attempts_next thread_id i count :
  Demo.attempts thread_id i (S count) =
    CallEnqueue 0 (Demo.event_to_enqueue thread_id i)
    :: Demo.attempts thread_id (i + 1) count.
Proof.
  unfold Demo.attempts. cbn [seq map]. rewrite Z.add_0_r. f_equal.
  rewrite <- seq_shift, map_map. apply map_ext. intros k.
  do 2 f_equal. lia.
Qed.

Lemma occupancy_after_enqueue s n event :
  next_of (tail (ring s)) <> head (ring s) ->
  occupancy (call RING_SIZE s (CallEnqueue n event)) = occupancy s + 1.
Proof.
  intros Hroom. unfold occupancy. simpl.
  rewrite enqueue_event_ok by assumption. simpl. lia.
Qed.

Lemma producer_loop_alone thread_id todo i s c :
  invariant RING_SIZE s ->
  let m := Z.min (Z.of_nat todo) (RING_SIZE - 1 - occupancy s) in
  Demo.producer_loop RING_SIZE thread_id todo i (ring s) c =
    (ring (run RING_SIZE (Demo.attempts thread_id i (Z.to_nat m)) s),
     {| success_count := success_count c + m;
        fail_count := fail_count c + (Z.of_nat todo - m) |}).
Proof.
  revert i s c. induction todo as [|todo IH]; intros i s c Hinv m.
  - subst m. pose proof (inv_order _ _ Hinv). pose proof (inv_bound _ _ Hinv).
    unfold occupancy.
    replace (Z.min (Z.of_nat 0) (RING_SIZE - 1 - (enqueued s - dequeued s)))
      with 0 by lia.
    simpl. destruct c; simpl. do 2 f_equal; lia.
  - cbn [Demo.producer_loop].
    pose proof (inv_order _ _ Hinv) as Ho. pose proof (inv_bound _ _ Hinv) as Hb.
    destruct (Z.eq_dec (next_of (tail (ring s))) (head (ring s))) as [Hfull|Hroom].
    + assert (Hocc : occupancy s = RING_SIZE - 1)
        by (apply (full_test_reads_occupancy RING_SIZE RING_SIZE_range);
            assumption).
      rewrite enqueue_event_full by assumption. cbn [ret rb_out].
      change (-1 =? 0) with false. cbv iota.
      rewrite (IH (i + 1) s _ Hinv). cbn [success_count fail_count].
      subst m. rewrite Hocc.
      replace (Z.min (Z.of_nat todo) (RING_SIZE - 1 - (RING_SIZE - 1)))
        with 0 by lia.
      replace (Z.min (Z.of_nat (S todo)) (RING_SIZE - 1 - (RING_SIZE - 1)))
        with 0 by lia.
      f_equal. f_equal; lia.
    + assert (Hocc : occupancy s <> RING_SIZE - 1).
      { intros Hx. apply Hroom.
        apply (full_test_reads_occupancy RING_SIZE RING_SIZE_range);
          assumption. }
      unfold occupancy in Hocc.
      pose proof (invariant_call RING_SIZE RING_SIZE_range s
                    (CallEnqueue 0 (Demo.event_to_enqueue thread_id i)) Hinv)
        as Hinv'.
      pose proof (occupancy_after_enqueue s 0
                    (Demo.event_to_enqueue thread_id i) Hroom) as Hocc'.
      assert (Hring : ring (call RING_SIZE s
                              (CallEnqueue 0 (Demo.event_to_enqueue thread_id i)))
                      = rb_out (enqueue_event RING_SIZE 0 (ring s)
                                  (Demo.event_to_enqueue thread_id i)))
        by reflexivity.
      rewrite <- Hring.
      rewrite enqueue_event_ok by assumption. cbn [ret].
      change (0 =? 0) with true. cbv iota.
      rewrite (IH (i + 1) _ _ Hinv'). cbn [success_count fail_count].
      rewrite Hocc'. subst m. unfold occupancy.
      set (room := RING_SIZE - 1 - (enqueued s - dequeued s)) in *.
      replace (RING_SIZE - 1 - (enqueued s - dequeued s + 1)) with (room - 1)
        by (subst room; lia).
      assert (Hroom1 : 1 <= room) by (subst room; lia).
      replace (Z.to_nat (Z.min (Z.of_nat (S todo)) room))
        with (S (Z.to_nat (Z.min (Z.of_nat todo) (room - 1)))) by lia.
      rewrite attempts_next. cbn [run fold_left].
      f_equal. f_equal; lia.
Qed.

(** X10: run alone on a ring reached by any earlier calls, [producer_thread]
    adds events until [RING_SIZE - 1] are in the queue and is refused from
    then on: it adds min(EVENTS_PER_THREAD, RING_SIZE - 1 - occupancy)
    events, the ones with the lowest indices, and the structure it leaves
    is the one that enqueueing just these leaves. *)
Theorem producer_alone_fills_the_ring
    (rb0 : AtomicEventRingBuffer) (ev0 : Event) (calls : list Call)
    (thread_id : Z) :
  wf RING_SIZE rb0 ->
  0 <= EVENTS_PER_THREAD ->
  let s := run RING_SIZE calls (fresh rb0 ev0) in
  let p := Demo.producer_thread RING_SIZE EVENTS_PER_THREAD thread_id (ring s) in
  success_count (snd p)
    = Z.min EVENTS_PER_THREAD (RING_SIZE - 1 - occupancy s)
  /\ fail_count (snd p) = EVENTS_PER_THREAD - success_count (snd p)
  /\ fst p = ring (run RING_SIZE
                     (Demo.attempts thread_id 0
                        (Z.to_nat (success_count (snd p)))) s).
Proof.
  intros Hwf Hevents s p.
  pose proof (invariant_reachable RING_SIZE RING_SIZE_range rb0 ev0 calls Hwf)
    as Hinv. fold s in Hinv.
  subst p. unfold Demo.producer_thread.
  rewrite (producer_loop_alone thread_id _ 0 s _ Hinv).
  cbn [fst snd success_count fail_count].
  rewrite Z2Nat.id by assumption.
  repeat split; lia.
Qed.

(** ** consumer_thread *)

Lemma consumer_loop_exit fuel rb ev c a res :
  success_count c < the_quota ->
  Demo.consumer_loop RING_SIZE EVENTS_PER_THREAD NUM_PRODUCERS NUM_CONSUMERS
    fuel rb ev c a = Some res ->
  success_count (snd res) = the_quota.
Proof.
  revert rb ev c a. induction fuel as [|fuel IH]; intros rb ev c a Hlt Hres.
  - discriminate Hres.
  - cbn [Demo.consumer_loop] in Hres.
    assert (Hcond : (a >? 0) || (success_count c <? the_quota) = true).
    { apply orb_true_iff. right. apply Z.ltb_lt. exact Hlt. }
    rewrite Hcond in Hres.
    destruct (ret (dequeue_event RING_SIZE 0 rb ev) =? 0).
    + cbn [success_count] in Hres.
      destruct (Z.geb_spec (success_count c + 1) the_quota) as [Hge|Hless].
      * injection Hres as <-. simpl. lia.
      * apply IH in Hres; [exact Hres | simpl; lia].
    + cbn [success_count] in Hres.
      destruct (Z.geb_spec (success_count c) the_quota) as [Hge|Hless].
      * lia.
      * apply IH in Hres; [exact Hres | simpl; lia].
Qed.

(** X11: [consumer_thread] leaves its loop only through the [break]: when
    it returns, its [success_count] is exactly its share
    [(EVENTS_PER_THREAD * NUM_PRODUCERS) / NUM_CONSUMERS] (taken positive),
    whatever the ring held and however many attempts were made; running
    out of [attempts_remaining] does not end the loop. *)
Theorem consumer_returns_only_with_its_share
    (fuel : nat) (rb : AtomicEventRingBuffer) (ev : Event)
    (res : AtomicEventRingBuffer * Event * Counts) :
  0 < Demo.quota EVENTS_PER_THREAD NUM_PRODUCERS NUM_CONSUMERS ->
  Demo.consumer_thread RING_SIZE EVENTS_PER_THREAD NUM_PRODUCERS NUM_CONSUMERS
    fuel rb ev = Some res ->
  success_count (snd res)
    = Demo.quota EVENTS_PER_THREAD NUM_PRODUCERS NUM_CONSUMERS.
Proof.
  intros Hquota Hres. unfold Demo.consumer_thread in Hres.
  apply consumer_loop_exit in Hres; [exact Hres | simpl; lia].
Qed.

Lemma ring_after_dequeue s n :
  head (ring s) <> tail (ring s) ->
  ring (call RING_SIZE s (CallDequeue n)) =
    {| head := next_of (head (ring s)); tail := tail (ring s);
       buffer := buffer (ring s) |}
  /\ occupancy (call RING_SIZE s (CallDequeue n)) = occupancy s - 1.
Proof.
  intros Hsome. unfold occupancy. simpl.
  rewrite dequeue_event_ok by assumption. simpl. split; [reflexivity | lia].
Qed.

Lemma consumer_loop_starved fuel s ev c a :
  invariant RING_SIZE s ->
  success_count c + occupancy s < the_quota ->
  Demo.consumer_loop RING_SIZE EVENTS_PER_THREAD NUM_PRODUCERS NUM_CONSUMERS
    fuel (ring s) ev c a = None.
Proof.
  revert s ev c a. induction fuel as [|fuel IH]; intros s ev c a Hinv Hlt.
  - reflexivity.
  - cbn [Demo.consumer_loop].
    pose proof (inv_order _ _ Hinv) as Ho.
    assert (Hocc0 : 0 <= occupancy s) by (unfold occupancy; lia).
    assert (Hcond : (a >? 0) || (success_count c <? the_quota) = true).
    { apply orb_true_iff. right. apply Z.ltb_lt. lia. }
    rewrite Hcond.
    destruct (Z.eq_dec (head (ring s)) (tail (ring s))) as [Hempty|Hsome].
    + rewrite dequeue_event_empty by assumption. cbn [ret rb_out event_out].
      change (-1 =? 0) with false. cbv iota. cbn [success_count].
      destruct (Z.geb_spec (success_count c) the_quota) as [Hge|Hless];
        [lia|].
      apply IH; [exact Hinv | simpl; lia].
    + assert (Hocc : occupancy s <> 0).
      { intros Hx. apply Hsome.
        apply (empty_test_reads_occupancy RING_SIZE RING_SIZE_range);
          assumption. }
      destruct (ring_after_dequeue s 0 Hsome) as [Hring Hless1].
      rewrite dequeue_event_ok by assumption. cbn [ret rb_out event_out].
      change (0 =? 0) with true. cbv iota. cbn [success_count].
      destruct (Z.geb_spec (success_count c + 1) the_quota) as [Hge|Hless];
        [lia|].
      rewrite <- Hring.
      apply IH.
      * apply (invariant_call RING_SIZE RING_SIZE_range). exact Hinv.
      * cbn [success_count]. rewrite Hless1. lia.
Qed.

(** X12: run alone on a ring that holds fewer events than its share, a
    consumer does not return: after any number of iterations (below 2^31,
    where its [int] counters would overflow) it is still in its loop, even
    though [attempts_remaining] has long run out. *)
Theorem starved_consumer_stays_in_its_loop
    (rb0 : AtomicEventRingBuffer) (ev0 ev : Event) (calls : list Call)
    (fuel : nat) :
  wf RING_SIZE rb0 ->
  Z.of_nat fuel < 2 ^ 31 ->
  let s := run RING_SIZE calls (fresh rb0 ev0) in
  occupancy s < Demo.quota EVENTS_PER_THREAD NUM_PRODUCERS NUM_CONSUMERS ->
  Demo.consumer_thread RING_SIZE EVENTS_PER_THREAD NUM_PRODUCERS NUM_CONSUMERS
    fuel (ring s) ev = None.
Proof.
  intros Hwf _ s Hfew.
  unfold Demo.consumer_thread. apply consumer_loop_starved.
  - apply (invariant_reachable RING_SIZE RING_SIZE_range). exact Hwf.
  - simpl. lia.
Qed.

Lemma consumer_loop_served fuel k s c a :
  invariant RING_SIZE s ->
  (0 < k <= fuel)%nat ->
  Z.of_nat k <= occupancy s ->
  success_count c + Z.of_nat k = the_quota ->
  Demo.consumer_loop RING_SIZE EVENTS_PER_THREAD NUM_PRODUCERS NUM_CONSUMERS
    fuel (ring s) (received s) c a =
    Some (ring (run RING_SIZE (repeat (CallDequeue 0) k) s),
          received (run RING_SIZE (repeat (CallDequeue 0) k) s),
          {| success_count := the_quota; fail_count := fail_count c |}).
Proof.
  revert k s c a. induction fuel as [|fuel IH]; intros k s c a Hinv Hk Hocc Hsum.
  - lia.
  - cbn [Demo.consumer_loop].
    assert (Hcond : (a >? 0) || (success_count c <? the_quota) = true).
    { apply orb_true_iff. right. apply Z.ltb_lt. lia. }
    rewrite Hcond.
    assert (Hsome : head (ring s) <> tail (ring s)).
    { intros Hx.
      apply (empty_test_reads_occupancy RING_SIZE RING_SIZE_range) in Hx;
        [lia | assumption]. }
    destruct (ring_after_dequeue s 0 Hsome) as [_ Hless1].
    pose proof (invariant_call RING_SIZE RING_SIZE_range s (CallDequeue 0) Hinv)
      as Hinv'.
    set (r := dequeue_event RING_SIZE 0 (ring s) (received s)).
    assert (Hret : ret r = 0).
    { subst r. rewrite dequeue_event_code.
      apply Z.eqb_neq in Hsome. rewrite Hsome. reflexivity. }
    rewrite Hret. change (0 =? 0) with true. cbv iota. cbn [success_count].
    change (rb_out r) with (ring (call RING_SIZE s (CallDequeue 0))).
    change (event_out r) with (received (call RING_SIZE s (CallDequeue 0))).
    destruct k as [|[|k]]; [lia| |].
    + destruct (Z.geb_spec (success_count c + 1) the_quota) as [Hge|Hless];
        [|lia].
      cbn [repeat run fold_left]. do 2 f_equal. f_equal. lia.
    + destruct (Z.geb_spec (success_count c + 1) the_quota) as [Hge|Hless];
        [lia|].
      rewrite (IH (S k) _ _ _ Hinv')
        by (cbn [success_count]; rewrite ?Hless1; lia).
      reflexivity.
Qed.

(** X13: run alone on a ring that holds at least its share of events, a
    consumer returns after exactly that many dequeue calls, all of them
    successful: its [success_count] is its share, its [fail_count] is 0,
    and the structure and the last event received are those that this many
    [dequeue_event] calls leave. *)
Theorem served_consumer_takes_its_share
    (rb0 : AtomicEventRingBuffer) (ev0 : Event) (calls : list Call)
    (fuel : nat) :
  wf RING_SIZE rb0 ->
  let share := Demo.quota EVENTS_PER_THREAD NUM_PRODUCERS NUM_CONSUMERS in
  let s := run RING_SIZE calls (fresh rb0 ev0) in
  let s' := run RING_SIZE (repeat (CallDequeue 0) (Z.to_nat share)) s in
  0 < share <= occupancy s ->
  (Z.to_nat share <= fuel)%nat ->
  Demo.consumer_thread RING_SIZE EVENTS_PER_THREAD NUM_PRODUCERS NUM_CONSUMERS
    fuel (ring s) (received s) =
    Some (ring s', received s', {| success_count := share; fail_count := 0 |}).
Proof.
  intros Hwf share s s' Hshare Hfuel.
  unfold Demo.consumer_thread.
  rewrite (consumer_loop_served fuel (Z.to_nat share) s).
  - reflexivity.
  - apply (invariant_reachable RING_SIZE RING_SIZE_range). exact Hwf.
  - lia.
  - lia.
  - simpl. fold share. lia.
Qed.

(** ** The check at the end of main *)

(** X14: in a session on one thread the two halves of the final check of
    [main] say the same: [head == tail] holds exactly when as many events
    were dequeued as were enqueued, so the check succeeds exactly when the
    two totals agree. *)
Theorem final_check_follows_the_totals
    (rb0 : AtomicEventRingBuffer) (ev0 : Event) (calls : list Call) :
  wf RING_SIZE rb0 ->
  let s := run RING_SIZE calls (fresh rb0 ev0) in
  (head (ring s) = tail (ring s) <-> enqueued s = dequeued s)
  /\ Demo.final_check (enqueued s) (dequeued s) (head (ring s)) (tail (ring s))
     = (enqueued s =? dequeued s).
Proof.
  intros Hwf s.
  pose proof (invariant_reachable RING_SIZE RING_SIZE_range rb0 ev0 calls Hwf)
    as Hinv. fold s in Hinv.
  pose proof (empty_test_reads_occupancy RING_SIZE RING_SIZE_range s Hinv)
    as Hempty.
  unfold occupancy in Hempty.
  assert (Hiff : head (ring s) = tail (ring s) <-> enqueued s = dequeued s)
    by (rewrite Hempty; lia).
  split; [exact Hiff|].
  unfold Demo.final_check.
  destruct (Z.eqb_spec (enqueued s) (dequeued s)) as [Heq|Hne]; simpl.
  - apply Z.eqb_eq, Hiff, Heq.
  - reflexivity.
Qed.

End DemoThreads.

(** * The events the threads build *)

(** X15: the event that producer [thread_id] of the demonstration driver
    builds for index [i] tells both: [vpn] is [i] and [pid / 1000] is
    [thread_id] (for indices below 2^32 and thread numbers whose pids fit
    32 bits).  The [pid] alone does not tell the event: it is the same
    1000 events later. *)
Theorem demo_event_identifies_thread_and_index (thread_id i : Z) :
  0 <= thread_id ->
  thread_id * 1000 + 999 < 2 ^ 32 ->
  0 <= i < 2 ^ 32 ->
  vpn (Demo.event_to_enqueue thread_id i) = i
  /\ pid (Demo.event_to_enqueue thread_id i) / 1000 = thread_id
  /\ pid (Demo.event_to_enqueue thread_id i) mod 1000 = i mod 1000
  /\ pid (Demo.event_to_enqueue thread_id (i + 1000))
     = pid (Demo.event_to_enqueue thread_id i).
Proof.
  intros Ht Hfit Hi. unfold Demo.event_to_enqueue, u32. simpl.
  rewrite !Z.rem_mod_nonneg by lia.
  pose proof (Z.mod_pos_bound i 1000 ltac:(lia)) as Hm.
  replace ((i + 1000) mod 1000) with (i mod 1000)
    by (replace (i + 1000) with (i + 1 * 1000) by lia;
        symmetry; apply Z_mod_plus_full).
  rewrite (Z.mod_small i) by lia.
  rewrite (Z.mod_small (thread_id * 1000 + i mod 1000)) by lia.
  repeat split.
  - rewrite Z.add_comm, Z.div_add by lia. rewrite Z.div_small by lia. lia.
  - rewrite Z.add_comm, Z.mod_add by lia. apply Z.mod_mod. lia.
Qed.

Lemma high_half (thread_id i : Z) :
  0 <= i < 2 ^ 32 ->
  Z.shiftr (Stress.event_id (Stress.event thread_id i)) 32
    = thread_id mod 2 ^ 32.
Proof.
  intros Hi. unfold Stress.event, u64. simpl Stress.event_id.
  rewrite Z.shiftr_lor.
  rewrite (Z.mod_small i) by lia.
  rewrite (Z.shiftr_div_pow2 i) by lia.
  rewrite (Z.div_small i) by lia.
  rewrite Z.lor_0_r.
  rewrite Z.shiftl_mul_pow2, Z.shiftr_div_pow2 by lia.
  change (2 ^ 64) with (2 ^ 32 * 2 ^ 32).
  rewrite Z.mul_mod_distr_r by lia.
  rewrite Z.div_mul by lia.
  rewrite Z.rem_mul_r by lia.
  rewrite Z.mul_comm, Z.mod_add by lia.
  apply Z.mod_mod. lia.
Qed.

Lemma expected_pid_reads_the_tag (a i p v : Z) :
  0 <= i < 2 ^ 32 ->
  Stress.expected_pid
    {| Stress.event_id := Stress.event_id (Stress.event a i);
       Stress.pid := p; Stress.vpn := v |}
  = u32 (a + 1000).
Proof.
  intros Hi. unfold Stress.expected_pid.
  cbn [Stress.event_id]. rewrite (high_half a i Hi).
  unfold u32, u64.
  pose proof (Z.mod_pos_bound a (2 ^ 32) ltac:(lia)) as Hm.
  rewrite (Z.mod_small (a mod 2 ^ 32 + 1000)) by lia.
  apply Zplus_mod_idemp_l.
Qed.

(** X16: every event the stress producer builds passes the stress
    consumer's test: for an index below 2^32, the [pid] recomputed from the
    high half of [event_id] is the [pid] stored, whatever the thread. *)
Theorem stress_event_passes_the_check (thread_id i : Z) :
  0 <= i < 2 ^ 32 ->
  Stress.expected_pid (Stress.event thread_id i)
    = Stress.pid (Stress.event thread_id i)
  /\ Stress.corrupted (Stress.event thread_id i) = false.
Proof.
  intros Hi.
  assert (Hpid : Stress.expected_pid (Stress.event thread_id i)
                 = Stress.pid (Stress.event thread_id i)).
  { unfold Stress.expected_pid. rewrite high_half by assumption.
    unfold u32, u64. simpl Stress.pid.
    pose proof (Z.mod_pos_bound thread_id (2 ^ 32) ltac:(lia)) as Hm.
    rewrite (Z.mod_small (thread_id mod 2 ^ 32 + 1000)) by lia.
    rewrite Zplus_mod_idemp_l. reflexivity. }
  split; [exact Hpid|].
  unfold Stress.corrupted. rewrite Hpid, Z.eqb_refl. reflexivity.
Qed.

(** X17: [event_id] is a unique tag: for thread numbers and indices below
    2^32, its high half is the thread number and its low half the index,
    so two events with the same [event_id] come from the same thread and
    the same index. *)
Theorem stress_event_id_is_unique (t i t' i' : Z) :
  0 <= t < 2 ^ 32 -> 0 <= i < 2 ^ 32 ->
  0 <= t' < 2 ^ 32 -> 0 <= i' < 2 ^ 32 ->
  (Z.shiftr (Stress.event_id (Stress.event t i)) 32 = t
   /\ Z.land (Stress.event_id (Stress.event t i)) (Z.ones 32) = i)
  /\ (Stress.event_id (Stress.event t i) = Stress.event_id (Stress.event t' i')
      -> t = t' /\ i = i').
Proof.
  intros Ht Hi Ht' Hi'.
  assert (Hlow : forall a b, 0 <= a < 2 ^ 32 -> 0 <= b < 2 ^ 32 ->
            Z.land (Stress.event_id (Stress.event a b)) (Z.ones 32) = b).
  { intros a b Ha Hb. unfold Stress.event, u64. simpl Stress.event_id.
    rewrite Z.land_ones by lia.
    rewrite (Z.mod_small a), (Z.mod_small b) by lia.
    rewrite Z.shiftl_mul_pow2 by lia.
    rewrite (Z.mod_small (a * 2 ^ 32)) by nia.
    rewrite <- Z.land_ones by lia.
    rewrite Z.land_lor_distr_l.
    rewrite !Z.land_ones by lia.
    rewrite Z.mod_mul by lia. rewrite (Z.mod_small b) by lia.
    apply Z.lor_0_l. }
  assert (Hhigh : forall a b, 0 <= a < 2 ^ 32 -> 0 <= b < 2 ^ 32 ->
            Z.shiftr (Stress.event_id (Stress.event a b)) 32 = a).
  { intros a b Ha Hb. rewrite high_half by assumption.
    apply Z.mod_small. assumption. }
  split; [split; [apply Hhigh | apply Hlow]; assumption|].
  intros Heq. split.
  - rewrite <- (Hhigh t i Ht Hi), <- (Hhigh t' i' Ht' Hi'), Heq. reflexivity.
  - rewrite <- (Hlow t i Ht Hi), <- (Hlow t' i' Ht' Hi'), Heq. reflexivity.
Qed.

(** X18: what the stress consumer's test can see.  An event whose
    [event_id] comes from one producer and whose [pid] comes from another
    is reported as corrupted; an event whose fields come from two
    different events of the same producer is not. *)
Theorem stress_check_sees_the_producer_only (a b i j : Z) :
  0 <= a < 2 ^ 32 -> 0 <= b < 2 ^ 32 ->
  0 <= i < 2 ^ 32 ->
  let mixed (t : Z) :=
    {| Stress.event_id := Stress.event_id (Stress.event a i);
       Stress.pid := Stress.pid (Stress.event t j);
       Stress.vpn := Stress.vpn (Stress.event t j) |} in
  Stress.corrupted (mixed a) = false
  /\ (a <> b -> Stress.corrupted (mixed b) = true).
Proof.
  intros Ha Hb Hi mixed. subst mixed. unfold Stress.corrupted.
  assert (Hexp : forall p v,
            Stress.expected_pid
              {| Stress.event_id := Stress.event_id (Stress.event a i);
                 Stress.pid := p; Stress.vpn := v |}
            = u32 (a + 1000)).
  { intros p v. apply expected_pid_reads_the_tag. exact Hi. }
  rewrite !Hexp. simpl Stress.pid. split.
  - rewrite Z.eqb_refl. reflexivity.
  - intros Hab. apply negb_true_iff, Z.eqb_neq. unfold u32. intros Heq.
    apply Hab.
    pose proof (Z.div_mod (a + 1000) (2 ^ 32) ltac:(lia)) as Da.
    pose proof (Z.div_mod (b + 1000) (2 ^ 32) ltac:(lia)) as Db.
    rewrite Heq in Db.
    assert ((b + 1000) / 2 ^ 32 = (a + 1000) / 2 ^ 32) by nia.
    lia.
Qed.

(** X19: with the constants of the source (a ring of 1024 cells, a share of
    1000000 events) a consumer that runs alone never returns, whatever the
    earlier calls were: the ring holds at most 1023 events.  (Iterations
    below 2^31, as for X12.) *)
Theorem demo_consumer_needs_the_producers
    (rb0 : AtomicEventRingBuffer) (ev0 ev : Event) (calls : list Call)
    (fuel : nat) :
  wf Src.RING_SIZE rb0 ->
  Z.of_nat fuel < 2 ^ 31 ->
  Demo.consumer_thread Src.RING_SIZE DemoSrc.EVENTS_PER_THREAD
    DemoSrc.NUM_PRODUCERS DemoSrc.NUM_CONSUMERS fuel
    (ring (run Src.RING_SIZE calls (fresh rb0 ev0))) ev = None.
Proof.
  intros Hwf _.
  assert (Hrange : 0 < Src.RING_SIZE < 2 ^ 64) by (unfold Src.RING_SIZE; lia).
  pose proof (invariant_reachable Src.RING_SIZE Hrange rb0 ev0 calls Hwf)
    as Hinv.
  unfold Demo.consumer_thread.
  apply (consumer_loop_starved Src.RING_SIZE Hrange); [exact Hinv|].
  pose proof (inv_bound _ _ Hinv) as Hb. unfold occupancy.
  change (Demo.quota DemoSrc.EVENTS_PER_THREAD DemoSrc.NUM_PRODUCERS
            DemoSrc.NUM_CONSUMERS) with 1000000.
  simpl success_count. change (Src.RING_SIZE - 1) with 1023 in Hb. lia.
Qed.

(** * A lap of the cursors during a call *)

Lemma above_one_is_positive (n : Z) : 1 < n < 2 ^ 64 -> 0 < n < 2 ^ 64.
Proof. lia. Qed.

Section Lap.

Variable RING_SIZE : Z.
Hypothesis RING_SIZE_range : 1 < RING_SIZE < 2 ^ 64.

Local Abbreviation next_of x := (u64 (x + 1) mod RING_SIZE).

Local Abbreviation range := (above_one_is_positive RING_SIZE RING_SIZE_range).

Lemma rb_out_dequeue_any_event n rb e1 e2 :
  rb_out (dequeue_event RING_SIZE n rb e1)
  = rb_out (dequeue_event RING_SIZE n rb e2).
Proof.
  destruct (Z.eq_dec (head rb) (tail rb)) as [Hempty|Hsome].
  - rewrite !dequeue_event_empty by assumption. reflexivity.
  - rewrite !dequeue_event_ok by assumption. reflexivity.
Qed.

Lemma ring_run_only_ring calls s1 s2 :
  ring s1 = ring s2 ->
  ring (run RING_SIZE calls s1) = ring (run RING_SIZE calls s2).
Proof.
  revert s1 s2. induction calls as [|c calls IH]; intros s1 s2 Hring.
  - exact Hring.
  - cbn [run fold_left]. apply IH.
    destruct c as [|n event|n]; simpl; rewrite Hring.
    + reflexivity.
    + reflexivity.
    + apply rb_out_dequeue_any_event.
Qed.

Lemma counts_after_enqueues event k s :
  invariant RING_SIZE s ->
  occupancy s + Z.of_nat k <= RING_SIZE - 1 ->
  let s' := run RING_SIZE (repeat (CallEnqueue 0 event) k) s in
  enqueued s' = enqueued s + Z.of_nat k /\ dequeued s' = dequeued s.
Proof.
  revert s. induction k as [|k IH]; intros s Hinv Hroom.
  - simpl. lia.
  - cbn [repeat run fold_left].
    assert (Hnot : next_of (tail (ring s)) <> head (ring s)).
    { rewrite (full_test_reads_occupancy RING_SIZE range s Hinv). lia. }
    pose proof (invariant_call RING_SIZE range s (CallEnqueue 0 event) Hinv)
      as Hinv'.
    assert (Hcounts : enqueued (call RING_SIZE s (CallEnqueue 0 event))
                      = enqueued s + 1
                      /\ dequeued (call RING_SIZE s (CallEnqueue 0 event))
                         = dequeued s).
    { simpl. rewrite enqueue_event_ok by assumption. simpl. lia. }
    destruct Hcounts as [He Hd].
    destruct (IH _ Hinv') as [He' Hd'].
    { unfold occupancy in *. lia. }
    fold (run RING_SIZE (repeat (CallEnqueue 0 event) k)
            (call RING_SIZE s (CallEnqueue 0 event))).
    lia.
Qed.

Lemma counts_after_dequeues k s :
  invariant RING_SIZE s ->
  Z.of_nat k <= occupancy s ->
  let s' := run RING_SIZE (repeat (CallDequeue 0) k) s in
  enqueued s' = enqueued s /\ dequeued s' = dequeued s + Z.of_nat k.
Proof.
  revert s. induction k as [|k IH]; intros s Hinv Hk.
  - simpl. lia.
  - cbn [repeat run fold_left].
    assert (Hsome : head (ring s) <> tail (ring s)).
    { rewrite (empty_test_reads_occupancy RING_SIZE range s Hinv). lia. }
    pose proof (invariant_call RING_SIZE range s (CallDequeue 0) Hinv)
      as Hinv'.
    assert (Hcounts : enqueued (call RING_SIZE s (CallDequeue 0)) = enqueued s
                      /\ dequeued (call RING_SIZE s (CallDequeue 0))
                         = dequeued s + 1).
    { cbn [call enqueued dequeued].
      rewrite dequeue_event_ok by assumption. simpl. lia. }
    destruct Hcounts as [He Hd].
    destruct (IH _ Hinv') as [He' Hd'].
    { unfold occupancy in *. lia. }
    fold (run RING_SIZE (repeat (CallDequeue 0) k)
            (call RING_SIZE s (CallDequeue 0))).
    lia.
Qed.

Lemma counts_after_lap event s :
  invariant RING_SIZE s ->
  occupancy s = 1 ->
  let s' := run RING_SIZE (lap RING_SIZE event) s in
  invariant RING_SIZE s'
  /\ enqueued s' = enqueued s + (RING_SIZE - 1)
  /\ dequeued s' = dequeued s + RING_SIZE.
Proof.
  intros Hinv Hone s'. subst s'. unfold lap.
  change (run RING_SIZE
            (CallDequeue 0
             :: repeat (CallEnqueue 0 event) (Z.to_nat (RING_SIZE - 1))
                ++ repeat (CallDequeue 0) (Z.to_nat (RING_SIZE - 1))) s)
    with (run RING_SIZE
            (repeat (CallEnqueue 0 event) (Z.to_nat (RING_SIZE - 1))
             ++ repeat (CallDequeue 0) (Z.to_nat (RING_SIZE - 1)))
            (call RING_SIZE s (CallDequeue 0))).
  unfold run. rewrite fold_left_app.
  fold (run RING_SIZE (repeat (CallEnqueue 0 event) (Z.to_nat (RING_SIZE - 1)))
          (call RING_SIZE s (CallDequeue 0))).
  set (s1 := call RING_SIZE s (CallDequeue 0)).
  set (s2 := run RING_SIZE
               (repeat (CallEnqueue 0 event) (Z.to_nat (RING_SIZE - 1))) s1).
  fold (run RING_SIZE (repeat (CallDequeue 0) (Z.to_nat (RING_SIZE - 1))) s2).
  assert (Hinv1 : invariant RING_SIZE s1)
    by (apply (invariant_call RING_SIZE range); exact Hinv).
  assert (Hinv2 : invariant RING_SIZE s2)
    by (apply (invariant_run RING_SIZE range); exact Hinv1).
  assert (Hsome : head (ring s) <> tail (ring s)).
  { rewrite (empty_test_reads_occupancy RING_SIZE range s Hinv). lia. }
  assert (Hc1 : enqueued s1 = enqueued s /\ dequeued s1 = dequeued s + 1).
  { subst s1. cbn [call enqueued dequeued].
    rewrite dequeue_event_ok by assumption. simpl. lia. }
  unfold occupancy in Hone.
  destruct (counts_after_enqueues event (Z.to_nat (RING_SIZE - 1)) s1 Hinv1)
    as [He2 Hd2].
  { unfold occupancy. lia. }
  fold s2 in He2, Hd2.
  destruct (counts_after_dequeues (Z.to_nat (RING_SIZE - 1)) s2 Hinv2)
    as [He3 Hd3].
  { unfold occupancy. lia. }
  split; [apply (invariant_run RING_SIZE range); exact Hinv2|].
  lia.
Qed.

(** X20: the cursors are kept modulo [RING_SIZE], so [head] can come back
    to a value a sleeping consumer has loaded.  From any reachable state
    with one event in the queue: if, between a consumer's copy of the slot
    and its compare-and-swap, other threads dequeue that event, enqueue
    [RING_SIZE - 1] events and dequeue them all, the compare-and-swap still
    succeeds.  The call returns 0 with the event another consumer already
    received, and leaves [head] one position past [tail]: in a queue out of
    which everything has been taken, the next enqueue returns -1 and the
    next dequeue returns 0. *)
Theorem late_compare_and_swap_succeeds_after_a_lap
    (rb0 : AtomicEventRingBuffer) (ev0 : Event) (calls : list Call)
    (filler mine theirs : Event) :
  wf RING_SIZE rb0 ->
  let s := run RING_SIZE calls (fresh rb0 ev0) in
  occupancy s = 1 ->
  let first := dequeue_event RING_SIZE 0 (ring s) theirs in
  let r := dequeue_event_among RING_SIZE
             [others_complete RING_SIZE (lap RING_SIZE filler)]
             (ring s) mine in
  (enqueued (run RING_SIZE (lap RING_SIZE filler) s)
     = dequeued (run RING_SIZE (lap RING_SIZE filler) s))
  /\ ret first = 0
  /\ ret r = 0
  /\ event_out r = event_out first
  /\ tail (rb_out r) = head (ring s)
  /\ head (rb_out r) = (head (ring s) + 1) mod RING_SIZE
  /\ head (rb_out r) <> tail (rb_out r)
  /\ ret (enqueue_event RING_SIZE 0 (rb_out r) filler) = -1
  /\ ret (dequeue_event RING_SIZE 0 (rb_out r) mine) = 0.
Proof.
  intros Hwf s Hone first r.
  pose proof (invariant_reachable RING_SIZE range rb0 ev0 calls Hwf) as Hinv.
  fold s in Hinv.
  pose proof Hinv as [Hwfs Hh Ht Ho Hb].
  destruct (counts_after_lap filler s Hinv Hone) as (Hinv' & He & Hd).
  set (s' := run RING_SIZE (lap RING_SIZE filler) s) in *.
  assert (Hsome : head (ring s) <> tail (ring s)).
  { rewrite (empty_test_reads_occupancy RING_SIZE range s Hinv). lia. }
  assert (Hring : others_complete RING_SIZE (lap RING_SIZE filler) (ring s)
                  = ring s').
  { unfold others_complete. apply ring_run_only_ring. reflexivity. }
  unfold occupancy in Hone.
  assert (Hhead' : head (ring s') = head (ring s)).
  { rewrite (inv_head _ _ Hinv'), Hd, Hh.
    replace (dequeued s + RING_SIZE) with (dequeued s + 1 * RING_SIZE) by lia.
    apply Z_mod_plus_full. }
  assert (Htail' : tail (ring s') = head (ring s)).
  { rewrite (inv_tail _ _ Hinv'), He, Hh.
    replace (enqueued s + (RING_SIZE - 1)) with (dequeued s + 1 * RING_SIZE)
      by lia.
    apply Z_mod_plus_full. }
  assert (Hrange_h : 0 <= head (ring s) < RING_SIZE).
  { rewrite Hh. apply Z.mod_pos_bound. lia. }
  assert (Hnext : next_of (head (ring s)) = (head (ring s) + 1) mod RING_SIZE).
  { unfold u64. rewrite (Z.mod_small (head (ring s) + 1)) by lia.
    reflexivity. }
  assert (Hmoved : (head (ring s) + 1) mod RING_SIZE <> head (ring s)).
  { destruct (Z.eq_dec (head (ring s) + 1) RING_SIZE) as [Hlast|Hnot].
    - rewrite Hlast, Z.mod_same by lia. lia.
    - rewrite Z.mod_small by lia. lia. }
  assert (Hr : r = {| ret := 0;
                      rb_out := {| head := next_of (head (ring s));
                                   tail := head (ring s);
                                   buffer := buffer (ring s') |};
                      event_out :=
                        default mine
                          (buffer (ring s)
                             !! Z.to_nat (head (ring s) mod RING_SIZE));
                      iterations := 1 |}).
  { subst r. cbn [dequeue_event_among].
    apply Z.eqb_neq in Hsome. rewrite Hsome.
    rewrite Hring, Hhead', Z.eqb_refl, Htail'. reflexivity. }
  assert (Hslot : is_Some (buffer (ring s)
                             !! Z.to_nat (head (ring s) mod RING_SIZE))).
  { apply lookup_lt_is_Some_2. rewrite Hwfs.
    pose proof (Z.mod_pos_bound (head (ring s)) RING_SIZE ltac:(lia)). lia. }
  destruct Hslot as [x Hx].
  split; [lia|].
  subst first. rewrite Hr. rewrite dequeue_event_ok by assumption.
  cbn [ret rb_out event_out head tail]. rewrite Hx. cbn [default from_option id].
  rewrite enqueue_event_code, dequeue_event_code. cbn [head tail].
  rewrite Z.eqb_refl, Hnext.
  apply Z.eqb_neq in Hmoved. rewrite Hmoved. apply Z.eqb_neq in Hmoved.
  repeat split; auto.
Qed.

Lemma enqueue_event_among_nobody (rb : AtomicEventRingBuffer) (event : Event) :
  enqueue_event_among RING_SIZE [] rb event = enqueue_event RING_SIZE 0 rb event.
Proof. reflexivity. Qed.

Lemma counts_after_refill event s :
  invariant RING_SIZE s ->
  occupancy s = 0 ->
  let s' := run RING_SIZE (refill RING_SIZE event) s in
  invariant RING_SIZE s'
  /\ enqueued s' = enqueued s + RING_SIZE
  /\ dequeued s' = dequeued s + 1.
Proof.
  intros Hinv Hzero s'. subst s'. unfold refill, run.
  rewrite fold_left_app.
  fold (run RING_SIZE (repeat (CallEnqueue 0 event) (Z.to_nat (RING_SIZE - 1)))
          s).
  set (s1 := run RING_SIZE
               (repeat (CallEnqueue 0 event) (Z.to_nat (RING_SIZE - 1))) s).
  cbn [fold_left].
  set (s2 := call RING_SIZE s1 (CallDequeue 0)).
  assert (Hinv1 : invariant RING_SIZE s1)
    by (apply (invariant_run RING_SIZE range); exact Hinv).
  assert (Hinv2 : invariant RING_SIZE s2)
    by (apply (invariant_call RING_SIZE range); exact Hinv1).
  unfold occupancy in Hzero.
  destruct (counts_after_enqueues event (Z.to_nat (RING_SIZE - 1)) s Hinv)
    as [He1 Hd1].
  { unfold occupancy. lia. }
  fold s1 in He1, Hd1.
  assert (Hsome : head (ring s1) <> tail (ring s1)).
  { rewrite (empty_test_reads_occupancy RING_SIZE range s1 Hinv1).
    unfold occupancy. lia. }
  assert (Hc2 : enqueued s2 = enqueued s1 /\ dequeued s2 = dequeued s1 + 1).
  { subst s2. cbn [call enqueued dequeued].
    rewrite dequeue_event_ok by assumption. simpl. lia. }
  assert (Hroom : next_of (tail (ring s2)) <> head (ring s2)).
  { rewrite (full_test_reads_occupancy RING_SIZE range s2 Hinv2).
    unfold occupancy. lia. }
  split; [apply (invariant_call RING_SIZE range); exact Hinv2|].
  clearbody s2. clearbody s1.
  cbn [call enqueued dequeued].
  rewrite enqueue_event_ok by assumption. simpl. lia.
Qed.

(** X21: the same on the producer's side.  From any reachable state with an
    empty queue: if, between a producer's loads and its compare-and-swap,
    other threads enqueue [RING_SIZE - 1] events, dequeue one and enqueue
    one more, [tail] is back at the value loaded and the compare-and-swap
    succeeds although the ring is full.  The call returns 0, stores its
    event, and leaves [tail] on [head]: the ring of [RING_SIZE - 1]
    undelivered events looks empty, the next dequeue returns -1. *)
Theorem late_enqueue_empties_a_full_ring
    (rb0 : AtomicEventRingBuffer) (ev0 : Event) (calls : list Call)
    (filler mine : Event) :
  wf RING_SIZE rb0 ->
  let s := run RING_SIZE calls (fresh rb0 ev0) in
  occupancy s = 0 ->
  let s' := run RING_SIZE (refill RING_SIZE filler) s in
  let r := enqueue_event_among RING_SIZE
             [others_complete RING_SIZE (refill RING_SIZE filler)]
             (ring s) mine in
  occupancy s' = RING_SIZE - 1
  /\ ret (enqueue_event RING_SIZE 0 (ring s') mine) = -1
  /\ ret r = 0
  /\ head (rb_out r) = tail (rb_out r)
  /\ buffer (rb_out r) !! Z.to_nat (tail (ring s)) = Some mine
  /\ ret (dequeue_event RING_SIZE 0 (rb_out r) mine) = -1.
Proof.
  intros Hwf s Hzero s' r.
  pose proof (invariant_reachable RING_SIZE range rb0 ev0 calls Hwf) as Hinv.
  fold s in Hinv.
  pose proof Hinv as [Hwfs Hh Ht Ho Hb].
  destruct (counts_after_refill filler s Hinv Hzero) as (Hinv' & He & Hd).
  fold s' in Hinv', He, Hd.
  assert (Hring : others_complete RING_SIZE (refill RING_SIZE filler) (ring s)
                  = ring s').
  { unfold others_complete. apply ring_run_only_ring. reflexivity. }
  assert (Hocc' : occupancy s' = RING_SIZE - 1).
  { unfold occupancy in *. lia. }
  assert (Hempty : head (ring s) = tail (ring s)).
  { rewrite (empty_test_reads_occupancy RING_SIZE range s Hinv). exact Hzero. }
  unfold occupancy in Hzero.
  assert (Htail' : tail (ring s') = tail (ring s)).
  { rewrite (inv_tail _ _ Hinv'), He, Ht.
    replace (enqueued s + RING_SIZE) with (enqueued s + 1 * RING_SIZE) by lia.
    apply Z_mod_plus_full. }
  assert (Hrange_t : 0 <= tail (ring s) < RING_SIZE).
  { rewrite Ht. apply Z.mod_pos_bound. lia. }
  assert (Hhead' : head (ring s') = next_of (tail (ring s))).
  { rewrite (inv_head _ _ Hinv'), Hd, Ht.
    rewrite (next_of_count RING_SIZE range). f_equal. lia. }
  assert (Hroom : next_of (tail (ring s)) <> head (ring s)).
  { rewrite (full_test_reads_occupancy RING_SIZE range s Hinv).
    unfold occupancy. lia. }
  assert (Hr : r = {| ret := 0;
                      rb_out :=
                        {| head := next_of (tail (ring s));
                           tail := next_of (tail (ring s));
                           buffer := <[Z.to_nat (tail (ring s)) := mine]>
                                       (buffer (ring s')) |};
                      event_out := mine;
                      iterations := 1 |}).
  { subst r. unfold enqueue_event_among. cbn [enqueue_claim_among].
    apply Z.eqb_neq in Hroom. rewrite Hroom.
    rewrite Hring, Htail', Z.eqb_refl. unfold enqueue_write.
    cbn [head tail buffer]. rewrite Hhead'.
    rewrite (Z.mod_small (tail (ring s))) by lia. reflexivity. }
  split; [exact Hocc'|]. split.
  { rewrite enqueue_event_code.
    apply (full_test_reads_occupancy RING_SIZE range s' Hinv') in Hocc'.
    apply Z.eqb_eq in Hocc'. rewrite Hocc'. reflexivity. }
  rewrite Hr. cbn [ret rb_out head tail buffer].
  rewrite dequeue_event_code. cbn [head tail]. rewrite Z.eqb_refl.
  repeat split.
  apply list_lookup_insert_eq.
  pose proof (inv_wf _ _ Hinv') as Hwf'. rewrite Hwf'. lia.
Qed.

End Lap.

(** * The further statements at concrete inputs *)

Lemma ring_refines_fifo_witness :
  wf Src.RING_SIZE Src.zeroed
  /\ log (run Src.RING_SIZE (Src.enqueues 3 ++ [CallDequeue 0; CallDequeue 2])
            (fresh Src.zeroed (mkEvent 0 0)))
     = fifo_log (Src.RING_SIZE - 1)
         (Src.enqueues 3 ++ [CallDequeue 0; CallDequeue 2]) [] (mkEvent 0 0).
Proof.
  split; [exact src_zeroed_wf|].
  exact (ring_refines_fifo Src.RING_SIZE src_ring_size_range Src.zeroed
           (mkEvent 0 0) (Src.enqueues 3 ++ [CallDequeue 0; CallDequeue 2])
           src_zeroed_wf).
Defined.

Lemma spurious_failures_leave_no_trace_witness :
  iterations (enqueue_event Src.RING_SIZE 3 Src.zeroed (Src.sample 1)) = 4%nat
  /\ iterations (dequeue_event Src.RING_SIZE 3 Src.zeroed (Src.sample 1))
     = 1%nat.
Proof.
  pose proof (spurious_failures_leave_no_trace Src.RING_SIZE 3 Src.zeroed
                (Src.sample 1)) as (_ & _ & He & _ & _ & Hd).
  split.
  - apply He. vm_compute. reflexivity.
  - apply Hd. vm_compute. reflexivity.
Defined.

Lemma enqueue_writes_one_slot_witness :
  let r := enqueue_event Src.RING_SIZE 0 Src.zeroed (Src.sample 7) in
  ret r = 0
  /\ buffer (rb_out r) !! Z.to_nat (tail Src.zeroed mod Src.RING_SIZE)
     = Some (Src.sample 7)
  /\ (forall i : nat,
        i <> Z.to_nat (tail Src.zeroed mod Src.RING_SIZE) ->
        buffer (rb_out r) !! i = buffer Src.zeroed !! i)
  /\ length (buffer (rb_out r)) = length (buffer Src.zeroed)
  /\ head (rb_out r) = head Src.zeroed.
Proof.
  intros r.
  assert (Hpos : 0 < Src.RING_SIZE) by reflexivity.
  assert (Hret : ret (enqueue_event Src.RING_SIZE 0 Src.zeroed (Src.sample 7))
                 = 0) by (vm_compute; reflexivity).
  split; [exact Hret|].
  exact (enqueue_writes_one_slot Src.RING_SIZE 0%nat Src.zeroed (Src.sample 7)
           Hpos src_zeroed_wf Hret).
Defined.

Lemma enqueue_then_dequeue_on_empty_witness :
  let e := enqueue_event Src.RING_SIZE 0 Src.zeroed (Src.sample 7) in
  let d := dequeue_event Src.RING_SIZE 0 (rb_out e) (mkEvent 0 0) in
  ret e = 0
  /\ ret d = 0
  /\ event_out d = Src.sample 7
  /\ head (rb_out d) = tail (rb_out d)
  /\ head (rb_out d) = (head Src.zeroed + 1) mod Src.RING_SIZE.
Proof.
  assert (Hrange : 1 < Src.RING_SIZE < 2 ^ 64) by (unfold Src.RING_SIZE; lia).
  assert (Hhead : 0 <= head Src.zeroed < Src.RING_SIZE)
    by (unfold Src.RING_SIZE; simpl; lia).
  exact (enqueue_then_dequeue_on_empty Src.RING_SIZE 0%nat 0%nat Src.zeroed
           (Src.sample 7) (mkEvent 0 0) Hrange src_zeroed_wf Hhead eq_refl).
Defined.

Lemma successive_claims_take_different_slots_witness :
  let rb1 := {| head := 0; tail := 1; buffer := buffer Src.zeroed |} in
  let rb2 := {| head := 0; tail := 2; buffer := buffer Src.zeroed |} in
  Z.to_nat (0 mod Src.RING_SIZE) <> Z.to_nat (1 mod Src.RING_SIZE)
  /\ enqueue_write Src.RING_SIZE
       (enqueue_write Src.RING_SIZE rb2 0 (Src.sample 1)) 1 (Src.sample 2)
     = enqueue_write Src.RING_SIZE
         (enqueue_write Src.RING_SIZE rb2 1 (Src.sample 2)) 0 (Src.sample 1).
Proof.
  intros rb1 rb2.
  assert (Hrange : 1 < Src.RING_SIZE < 2 ^ 64) by (unfold Src.RING_SIZE; lia).
  assert (Htail : 0 <= tail Src.zeroed < Src.RING_SIZE)
    by (unfold Src.RING_SIZE; simpl; lia).
  assert (H1 : enqueue_claim Src.RING_SIZE 0 Src.zeroed
               = (Claimed 0, rb1, 1%nat)) by (vm_compute; reflexivity).
  assert (H2 : enqueue_claim Src.RING_SIZE 0 rb1 = (Claimed 1, rb2, 1%nat))
    by (vm_compute; reflexivity).
  exact (successive_claims_take_different_slots Src.RING_SIZE 0%nat 0%nat
           1%nat 1%nat Src.zeroed rb1 rb2 0 1 (Src.sample 1) (Src.sample 2)
           Hrange Htail H1 H2).
Defined.

Lemma empty_after_losing_the_race_witness :
  let rb := {| head := 0; tail := 1;
               buffer := <[0%nat := Src.sample 5]> (buffer Src.zeroed) |} in
  let r := dequeue_event_among Src.RING_SIZE
             [fun m => rb_out (dequeue_event Src.RING_SIZE 0 m (mkEvent 0 0))]
             rb (mkEvent 9 9) in
  ret r = -1
  /\ buffer rb !! Z.to_nat (head rb mod Src.RING_SIZE) = Some (event_out r).
Proof.
  intros rb r.
  assert (Hpos : 0 < Src.RING_SIZE) by reflexivity.
  assert (Hwf : wf Src.RING_SIZE rb) by reflexivity.
  assert (Hne : head rb <> tail rb) by (simpl; discriminate).
  assert (Hone : u64 (head rb + 1) mod Src.RING_SIZE = tail rb)
    by (vm_compute; reflexivity).
  pose proof (empty_after_losing_the_race Src.RING_SIZE rb (mkEvent 9 9)
                (mkEvent 0 0) Hpos Hwf Hne Hone) as (Hret & Hslot & _).
  split; [exact Hret | exact Hslot].
Defined.

Lemma consumer_between_claim_and_store_witness :
  let w := Interleaved.schedule Src.RING_SIZE
             [Interleaved.P; Interleaved.C; Interleaved.P]
             (Interleaved.mkWorld Interleaved.memory0
                (Interleaved.PEnter Interleaved.fresh_event)
                (Interleaved.CEnter (mkEvent 0 0))) in
  Interleaved.consumer w = Interleaved.CReturned 0 Interleaved.stale
  /\ Interleaved.producer w = Interleaved.PReturned 0
  /\ buffer (Interleaved.mem w) !! Z.to_nat (head Interleaved.memory0)
     = Some Interleaved.fresh_event
  /\ head (Interleaved.mem w) = tail (Interleaved.mem w)
  /\ ret (dequeue_event Src.RING_SIZE 0 (Interleaved.mem w) (mkEvent 0 0)) = -1.
Proof.
  assert (Hrange : 1 < Src.RING_SIZE < 2 ^ 64) by (unfold Src.RING_SIZE; lia).
  assert (Hwf : wf Src.RING_SIZE Interleaved.memory0) by reflexivity.
  assert (Hhead : 0 <= head Interleaved.memory0 < Src.RING_SIZE)
    by (unfold Src.RING_SIZE; simpl; lia).
  assert (Hold : buffer Interleaved.memory0
                   !! Z.to_nat (head Interleaved.memory0)
                 = Some Interleaved.stale) by reflexivity.
  exact (consumer_between_claim_and_store Src.RING_SIZE Interleaved.memory0
           Interleaved.fresh_event (mkEvent 0 0) Interleaved.stale
           Hrange Hwf Hhead eq_refl Hold).
Defined.


Lemma producer_alone_fills_the_ring_witness :
  let s := run Src.RING_SIZE (Src.enqueues 3) (fresh Src.zeroed (mkEvent 0 0)) in
  let p := Demo.producer_thread Src.RING_SIZE DemoSrc.EVENTS_PER_THREAD 1
             (ring s) in
  success_count (snd p)
    = Z.min DemoSrc.EVENTS_PER_THREAD (Src.RING_SIZE - 1 - occupancy s)
  /\ fail_count (snd p) = DemoSrc.EVENTS_PER_THREAD - success_count (snd p)
  /\ fst p = ring (run Src.RING_SIZE
                     (Demo.attempts 1 0 (Z.to_nat (success_count (snd p)))) s).
Proof.
  assert (Hevents : 0 <= DemoSrc.EVENTS_PER_THREAD)
    by (unfold DemoSrc.EVENTS_PER_THREAD; lia).
  exact (producer_alone_fills_the_ring Src.RING_SIZE src_ring_size_range
           DemoSrc.EVENTS_PER_THREAD Src.zeroed (mkEvent 0 0) (Src.enqueues 3)
           1 src_zeroed_wf Hevents).
Defined.

Lemma consumer_returns_only_with_its_share_witness :
  let rb := ring (run 4 (Src.enqueues 3) (fresh (Scenario.memory 4)
                                            (mkEvent 0 0))) in
  exists res,
    Demo.consumer_thread 4 2 1 1 5 rb (mkEvent 0 0) = Some res
    /\ success_count (snd res) = Demo.quota 2 1 1.
Proof.
  intros rb.
  exists (rb_out (dequeue_event 4 0 (rb_out (dequeue_event 4 0 rb (mkEvent 0 0)))
                    (Src.sample 0)),
          Src.sample 1,
          {| success_count := 2; fail_count := 0 |}).
  assert (Hres : Demo.consumer_thread 4 2 1 1 5 rb (mkEvent 0 0)
                 = Some (rb_out (dequeue_event 4 0
                                   (rb_out (dequeue_event 4 0 rb (mkEvent 0 0)))
                                   (Src.sample 0)),
                         Src.sample 1,
                         {| success_count := 2; fail_count := 0 |}))
    by (vm_compute; reflexivity).
  split; [exact Hres|].
  assert (Hquota : 0 < Demo.quota 2 1 1) by reflexivity.
  exact (consumer_returns_only_with_its_share 4 2 1 1 5%nat rb (mkEvent 0 0)
           _ Hquota Hres).
Defined.

Lemma starved_consumer_stays_in_its_loop_witness :
  Demo.consumer_thread Src.RING_SIZE DemoSrc.EVENTS_PER_THREAD
    DemoSrc.NUM_PRODUCERS DemoSrc.NUM_CONSUMERS 50
    (ring (run Src.RING_SIZE (Src.enqueues 3) (fresh Src.zeroed (mkEvent 0 0))))
    (mkEvent 0 0) = None.
Proof.
  assert (Hfuel : Z.of_nat 50 < 2 ^ 31) by reflexivity.
  assert (Hfew : occupancy (run Src.RING_SIZE (Src.enqueues 3)
                              (fresh Src.zeroed (mkEvent 0 0)))
                 < Demo.quota DemoSrc.EVENTS_PER_THREAD DemoSrc.NUM_PRODUCERS
                     DemoSrc.NUM_CONSUMERS) by (vm_compute; reflexivity).
  exact (starved_consumer_stays_in_its_loop Src.RING_SIZE src_ring_size_range
           DemoSrc.EVENTS_PER_THREAD DemoSrc.NUM_PRODUCERS
           DemoSrc.NUM_CONSUMERS Src.zeroed (mkEvent 0 0) (mkEvent 0 0)
           (Src.enqueues 3) 50%nat src_zeroed_wf Hfuel Hfew).
Defined.

Lemma served_consumer_takes_its_share_witness :
  let s := run Src.RING_SIZE (Src.enqueues 3) (fresh Src.zeroed (mkEvent 0 0)) in
  let s' := run Src.RING_SIZE (repeat (CallDequeue 0) (Z.to_nat (Demo.quota 2 1 1)))
              s in
  Demo.consumer_thread Src.RING_SIZE 2 1 1 5 (ring s) (received s) =
    Some (ring s', received s',
          {| success_count := Demo.quota 2 1 1; fail_count := 0 |}).
Proof.
  assert (Hshare : 0 < Demo.quota 2 1 1
                   <= occupancy (run Src.RING_SIZE (Src.enqueues 3)
                                   (fresh Src.zeroed (mkEvent 0 0))))
    by (vm_compute; split; [reflexivity | discriminate]).
  assert (Hfuel : (Z.to_nat (Demo.quota 2 1 1) <= 5)%nat)
    by (vm_compute; lia).
  exact (served_consumer_takes_its_share Src.RING_SIZE src_ring_size_range
           2 1 1 Src.zeroed (mkEvent 0 0) (Src.enqueues 3) 5%nat
           src_zeroed_wf Hshare Hfuel).
Defined.

Lemma final_check_follows_the_totals_witness :
  let s := run Src.RING_SIZE (Src.enqueues 3 ++ [CallDequeue 0])
             (fresh Src.zeroed (mkEvent 0 0)) in
  (head (ring s) = tail (ring s) <-> enqueued s = dequeued s)
  /\ Demo.final_check (enqueued s) (dequeued s) (head (ring s)) (tail (ring s))
     = (enqueued s =? dequeued s).
Proof.
  exact (final_check_follows_the_totals Src.RING_SIZE src_ring_size_range
           Src.zeroed (mkEvent 0 0) (Src.enqueues 3 ++ [CallDequeue 0])
           src_zeroed_wf).
Defined.

Lemma demo_event_identifies_thread_and_index_witness :
  vpn (Demo.event_to_enqueue 1 2500) = 2500
  /\ pid (Demo.event_to_enqueue 1 2500) / 1000 = 1
  /\ pid (Demo.event_to_enqueue 1 2500) mod 1000 = 2500 mod 1000
  /\ pid (Demo.event_to_enqueue 1 (2500 + 1000))
     = pid (Demo.event_to_enqueue 1 2500).
Proof.
  apply (demo_event_identifies_thread_and_index 1 2500); lia.
Defined.

Lemma stress_event_passes_the_check_witness :
  Stress.expected_pid (Stress.event 7 499999) = Stress.pid (Stress.event 7 499999)
  /\ Stress.corrupted (Stress.event 7 499999) = false.
Proof.
  apply (stress_event_passes_the_check 7 499999). lia.
Defined.

Lemma stress_event_id_is_unique_witness :
  Z.shiftr (Stress.event_id (Stress.event 7 499999)) 32 = 7
  /\ Z.land (Stress.event_id (Stress.event 7 499999)) (Z.ones 32) = 499999.
Proof.
  apply (stress_event_id_is_unique 7 499999 7 499999); lia.
Defined.

Lemma stress_check_sees_the_producer_only_witness :
  Stress.corrupted
    {| Stress.event_id := Stress.event_id (Stress.event 3 10);
       Stress.pid := Stress.pid (Stress.event 3 20);
       Stress.vpn := Stress.vpn (Stress.event 3 20) |} = false
  /\ Stress.corrupted
       {| Stress.event_id := Stress.event_id (Stress.event 3 10);
          Stress.pid := Stress.pid (Stress.event 4 20);
          Stress.vpn := Stress.vpn (Stress.event 4 20) |} = true.
Proof.
  pose proof (stress_check_sees_the_producer_only 3 4 10 20
                ltac:(lia) ltac:(lia) ltac:(lia)) as [_ Hother].
  pose proof (stress_check_sees_the_producer_only 3 3 10 20
                ltac:(lia) ltac:(lia) ltac:(lia)) as [Hsame _].
  split; [exact Hsame | apply Hother; lia].
Defined.

Lemma demo_consumer_needs_the_producers_witness :
  Demo.consumer_thread Src.RING_SIZE DemoSrc.EVENTS_PER_THREAD
    DemoSrc.NUM_PRODUCERS DemoSrc.NUM_CONSUMERS 50
    (ring (run Src.RING_SIZE (Src.enqueues 3) (fresh Src.zeroed (mkEvent 0 0))))
    (mkEvent 1 1) = None.
Proof.
  assert (Hfuel : Z.of_nat 50 < 2 ^ 31) by reflexivity.
  exact (demo_consumer_needs_the_producers Src.zeroed (mkEvent 0 0)
           (mkEvent 1 1) (Src.enqueues 3) 50%nat src_zeroed_wf Hfuel).
Defined.

Lemma late_compare_and_swap_succeeds_after_a_lap_witness :
  let s := run Scenario.Capacity [CallEnqueue 0 Scenario.A]
             (fresh (Scenario.memory 4) (mkEvent 0 0)) in
  let first := dequeue_event Scenario.Capacity 0 (ring s) (mkEvent 0 0) in
  let r := dequeue_event_among Scenario.Capacity
             [others_complete Scenario.Capacity
                (lap Scenario.Capacity Scenario.B)]
             (ring s) (mkEvent 0 0) in
  (enqueued (run Scenario.Capacity (lap Scenario.Capacity Scenario.B) s)
     = dequeued (run Scenario.Capacity (lap Scenario.Capacity Scenario.B) s))
  /\ ret first = 0
  /\ ret r = 0
  /\ event_out r = event_out first
  /\ tail (rb_out r) = head (ring s)
  /\ head (rb_out r) = (head (ring s) + 1) mod Scenario.Capacity
  /\ head (rb_out r) <> tail (rb_out r)
  /\ ret (enqueue_event Scenario.Capacity 0 (rb_out r) Scenario.B) = -1
  /\ ret (dequeue_event Scenario.Capacity 0 (rb_out r) (mkEvent 0 0)) = 0.
Proof.
  assert (Hrange : 1 < Scenario.Capacity < 2 ^ 64)
    by (unfold Scenario.Capacity; lia).
  assert (Hwf : wf Scenario.Capacity (Scenario.memory 4)) by reflexivity.
  assert (Hone : occupancy (run Scenario.Capacity [CallEnqueue 0 Scenario.A]
                              (fresh (Scenario.memory 4) (mkEvent 0 0))) = 1)
    by (vm_compute; reflexivity).
  exact (late_compare_and_swap_succeeds_after_a_lap Scenario.Capacity Hrange
           (Scenario.memory 4) (mkEvent 0 0) [CallEnqueue 0 Scenario.A]
           Scenario.B (mkEvent 0 0) (mkEvent 0 0) Hwf Hone).
Defined.

Lemma late_enqueue_empties_a_full_ring_witness :
  let s := fresh (Scenario.memory 4) (mkEvent 0 0) in
  let s' := run Scenario.Capacity (refill Scenario.Capacity Scenario.B) s in
  let r := enqueue_event_among Scenario.Capacity
             [others_complete Scenario.Capacity
                (refill Scenario.Capacity Scenario.B)]
             (ring s) Scenario.A in
  occupancy s' = Scenario.Capacity - 1
  /\ ret (enqueue_event Scenario.Capacity 0 (ring s') Scenario.A) = -1
  /\ ret r = 0
  /\ head (rb_out r) = tail (rb_out r)
  /\ buffer (rb_out r) !! Z.to_nat (tail (ring s)) = Some Scenario.A
  /\ ret (dequeue_event Scenario.Capacity 0 (rb_out r) Scenario.A) = -1.
Proof.
  assert (Hrange : 1 < Scenario.Capacity < 2 ^ 64)
    by (unfold Scenario.Capacity; lia).
  assert (Hwf : wf Scenario.Capacity (Scenario.memory 4)) by reflexivity.
  exact (late_enqueue_empties_a_full_ring Scenario.Capacity Hrange
           (Scenario.memory 4) (mkEvent 0 0) [] Scenario.B Scenario.A
           Hwf eq_refl).
Defined.

